(** * Orthographic camera scale: the modal operator and its compensator

    A shallow embedding of [camera_ortho_scale.py] (the Blender add-on
    "Orthographic Scale") and the properties of its parts:

    - [set_ortho_scale], which rescales an orthographic camera and moves
      it in its own X/Y plane so that the 3D cursor keeps its place in
      the camera frame;
    - [CAMERA_OT_ortho_scale], the modal operator that drives it from
      mouse motion and handles confirm and cancel;
    - [register] and [unregister], which enter and remove the two
      classes and the key binding of the operator.

    Numbers.  Python floats and the entries of [mathutils] matrices are
    read as exact rationals ([Qc], canonical fractions with Leibniz
    equality): [+ - * /], comparisons, [max] and [round] are the exact
    operations, and a division by zero raises [ZeroDivisionError] as in
    Python.  Mouse coordinates are Python ints ([Z]).

    Rounding.  What the add-on computes with Python floats it computes
    in binary64.  Where a property depends on the rounding of these
    operations, the scalar lines are read over an arithmetic ([Arith]):
    the exact one, or the doubles of Python ([Binary64], computed with
    the kernel's primitive floats).  The host keeps camera scales and
    matrix entries in single precision; that storage is outside this
    model.

    Effects.  The camera object, the cursor, the view and the header and
    status texts live in a [Context.t] that every operation receives and
    returns; the operator instance ([self]) is a record passed alongside.
    [self.cam] is a reference to the active object, the one cell of the
    store that the operator reads and writes, so a write through
    [set_ortho_scale] is seen by the next read through [self.cam].
    Exceptions are values of [result]. *)

From Stdlib Require Import ZArith QArith Qcanon Qround Qabs.
From Stdlib Require Import Bool String List DecimalString.
From Stdlib Require Import PeanoNat Lia Lqa.
From Stdlib Require Floats.
Import ListNotations.

Set Implicit Arguments.

(* ================================================================== *)
(** * Python values: exceptions, numbers, rounding, formatting *)
(* ================================================================== *)

Module Py.

(** The exceptions the embedded code can raise. *)
Inductive exn : Set :=
| ValueError          (* Matrix.inverted() on a singular matrix, a bad value *)
| ZeroDivisionError   (* float division by zero *)
| AttributeError.     (* attribute access on None or on a wrong type *)

Inductive result (A : Type) : Type :=
| Ok (a : A)
| Raise (e : exn).
Arguments Ok {A} a.
Arguments Raise {A} e.

Definition bind {A B : Type} (r : result A) (k : A -> result B) : result B :=
  match r with
  | Ok a => k a
  | Raise e => Raise e
  end.

Declare Scope py_scope.
Delimit Scope py_scope with py.
Notation "x <- r ;; k" := (bind r (fun x => k))
  (at level 61, r at next level, right associativity) : py_scope.

Local Open Scope Qc_scope.

(** Literals. *)
Definition of_int (n : Z) : Qc := Q2Qc (inject_Z n).
Definition two : Qc := of_int 2.
(** The literal [0.01]. *)
Definition c0_01 : Qc := Q2Qc (1 # 100).

(** [a == b], [a != b] and [a < b] on floats. *)
Definition eqb (a b : Qc) : bool := Qc_eq_bool a b.
Definition neqb (a b : Qc) : bool := negb (eqb a b).
Definition ltb (a b : Qc) : bool :=
  match a ?= b with Lt => true | _ => false end.

(** [a / b]: raises when the divisor is zero. *)
Definition truediv (a b : Qc) : result Qc :=
  if eqb b 0 then Raise ZeroDivisionError else Ok (a / b).

(** [max(a, b)]: the first argument, unless the second is strictly
    greater. *)
Definition max (a b : Qc) : Qc := if ltb a b then b else a.

(** Rounding to the nearest integer, ties to the even one. *)
Definition round_half_even (q : Q) : Z :=
  let f := Qfloor q in
  match Qcompare (q - inject_Z f) (1 # 2) with
  | Lt => f
  | Gt => (f + 1)%Z
  | Eq => if Z.even f then f else (f + 1)%Z
  end.

(** [round(x, 3)]: the closest multiple of [10**-3], ties to even. *)
Definition round3 (x : Qc) : Qc :=
  Q2Qc (inject_Z (round_half_even (x * inject_Z 1000)) / inject_Z 1000).

(** Decimal digits of a non-negative integer. *)
Definition digits (n : Z) : string :=
  NilZero.string_of_uint (N.to_uint (Z.to_N n)).

(** Three digits, padded with zeros on the left. *)
Definition pad3 (n : Z) : string :=
  let s := digits n in
  match String.length s with
  | 1%nat => ("00" ++ s)%string
  | 2%nat => ("0" ++ s)%string
  | _ => s
  end.

(** ["{:.3f}".format(x)]. *)
Definition format_3f (x : Qc) : string :=
  let n := Z.abs (round_half_even (x * inject_Z 1000)) in
  ((if ltb x 0 then "-" else "")
     ++ digits (n / 1000) ++ "." ++ pad3 (n mod 1000))%string.

End Py.

(* ================================================================== *)
(** * Binary floating point: the doubles of Python *)
(* ================================================================== *)

(** A Python [float] is an IEEE 754 binary64 number, the format of the
    kernel's primitive floats.  The three operations below divide,
    multiply and subtract as Python does, rounding to the nearest double
    with ties to even; they take and return the exact rational value of
    a double, so that they can stand where the exact operations of [Py]
    stand.

    [of_Qc] gives back the double when its argument is the value of one,
    and the nearest double when numerator and denominator are below
    [2**53], as [int / int] of Python does on ints of that size.  An
    infinity or a NaN has no rational value, and [to_Qc] answers 0
    there; no run in this file produces one. *)
Module Binary64.
Import PrimFloat.
Local Open Scope float_scope.

(** The double of a positive int: exact below [2**53] and on the powers
    of two. *)
Fixpoint of_pos (p : positive) : float :=
  match p with
  | xH => one
  | xO p => two * of_pos p
  | xI p => two * of_pos p + one
  end.

Definition of_Z (z : Z) : float :=
  match z with
  | Z0 => zero
  | Zpos p => of_pos p
  | Zneg p => - of_pos p
  end.

Definition of_Qc (q : Qc) : float := of_Z (Qnum q) / of_pos (Qden q).

(** The rational value [m * 2**e] of a finite double. *)
Definition to_Qc (f : float) : Qc :=
  match FloatOps.Prim2SF f with
  | SpecFloat.S754_finite s m e =>
      let v := Q2Qc (inject_Z (Zpos m) * Qpower (2 # 1) e) in
      if s then (- v)%Qc else v
  | _ => 0%Qc
  end.

(** [a / b]: raises when the divisor is zero. *)
Definition truediv (a b : Qc) : Py.result Qc :=
  if eqb (of_Qc b) zero then Py.Raise Py.ZeroDivisionError
  else Py.Ok (to_Qc (of_Qc a / of_Qc b)).

(** [a * b] and [a - b]. *)
Definition mul (a b : Qc) : Qc := to_Qc (of_Qc a * of_Qc b).
Definition sub (a b : Qc) : Qc := to_Qc (of_Qc a - of_Qc b).

(** The unit roundoff [2**-53]: half the gap between 1 and the next
    double. *)
Definition unit_roundoff : Qc := Q2Qc (1 # 9007199254740992).

End Binary64.

(* ================================================================== *)
(** * mathutils: 4x4 matrices *)
(* ================================================================== *)

Module Mathutils.
Import Py.
Local Open Scope Qc_scope.

(** A 3D vector. *)
Record Vector : Set := mkVector { vx : Qc; vy : Qc; vz : Qc }.

(** A 4x4 matrix, [mIJ] being row [I], column [J]. *)
Record Matrix : Set := mkMatrix {
  m00 : Qc; m01 : Qc; m02 : Qc; m03 : Qc;
  m10 : Qc; m11 : Qc; m12 : Qc; m13 : Qc;
  m20 : Qc; m21 : Qc; m22 : Qc; m23 : Qc;
  m30 : Qc; m31 : Qc; m32 : Qc; m33 : Qc }.

Definition identity : Matrix :=
  mkMatrix 1 0 0 0
           0 1 0 0
           0 0 1 0
           0 0 0 1.

(** [Matrix.Translation((x, y, z))]. *)
Definition Translation (x y z : Qc) : Matrix :=
  mkMatrix 1 0 0 x
           0 1 0 y
           0 0 1 z
           0 0 0 1.

(** [a @ b] on two matrices. *)
Definition matmul (a b : Matrix) : Matrix :=
  mkMatrix
    (m00 a * m00 b + m01 a * m10 b + m02 a * m20 b + m03 a * m30 b)
    (m00 a * m01 b + m01 a * m11 b + m02 a * m21 b + m03 a * m31 b)
    (m00 a * m02 b + m01 a * m12 b + m02 a * m22 b + m03 a * m32 b)
    (m00 a * m03 b + m01 a * m13 b + m02 a * m23 b + m03 a * m33 b)
    (m10 a * m00 b + m11 a * m10 b + m12 a * m20 b + m13 a * m30 b)
    (m10 a * m01 b + m11 a * m11 b + m12 a * m21 b + m13 a * m31 b)
    (m10 a * m02 b + m11 a * m12 b + m12 a * m22 b + m13 a * m32 b)
    (m10 a * m03 b + m11 a * m13 b + m12 a * m23 b + m13 a * m33 b)
    (m20 a * m00 b + m21 a * m10 b + m22 a * m20 b + m23 a * m30 b)
    (m20 a * m01 b + m21 a * m11 b + m22 a * m21 b + m23 a * m31 b)
    (m20 a * m02 b + m21 a * m12 b + m22 a * m22 b + m23 a * m32 b)
    (m20 a * m03 b + m21 a * m13 b + m22 a * m23 b + m23 a * m33 b)
    (m30 a * m00 b + m31 a * m10 b + m32 a * m20 b + m33 a * m30 b)
    (m30 a * m01 b + m31 a * m11 b + m32 a * m21 b + m33 a * m31 b)
    (m30 a * m02 b + m31 a * m12 b + m32 a * m22 b + m33 a * m32 b)
    (m30 a * m03 b + m31 a * m13 b + m32 a * m23 b + m33 a * m33 b).

Infix "@@" := matmul (at level 40, left associativity).

(** [m @ v] on a 4x4 matrix and a 3D vector: the vector is extended
    with a fourth coordinate 1 and the first three coordinates of the
    product are returned. *)
Definition matvec (m : Matrix) (v : Vector) : Vector :=
  mkVector
    (m00 m * vx v + m01 m * vy v + m02 m * vz v + m03 m)
    (m10 m * vx v + m11 m * vy v + m12 m * vz v + m13 m)
    (m20 m * vx v + m21 m * vy v + m22 m * vz v + m23 m).

(** The location part of [m.decompose()]: the translation column.  The
    rotation and scale parts are not used by the add-on. *)
Definition decompose_loc (m : Matrix) : Vector :=
  mkVector (m03 m) (m13 m) (m23 m).

(** [m.translation]. *)
Definition translation := decompose_loc.

(** The last row is [(0, 0, 0, 1)]: the matrix is an affine transform
    of space, as every object and cursor matrix of a scene is. *)
Definition affine (m : Matrix) : Prop :=
  m30 m = 0 /\ m31 m = 0 /\ m32 m = 0 /\ m33 m = 1.

Definition det3 (a b c d e f g h i : Qc) : Qc :=
  a * (e * i - f * h) - b * (d * i - f * g) + c * (d * h - e * g).

(** [m.determinant()]: expansion along the first row. *)
Definition determinant (m : Matrix) : Qc :=
    m00 m * det3 (m11 m) (m12 m) (m13 m) (m21 m) (m22 m) (m23 m) (m31 m) (m32 m) (m33 m)
  - m01 m * det3 (m10 m) (m12 m) (m13 m) (m20 m) (m22 m) (m23 m) (m30 m) (m32 m) (m33 m)
  + m02 m * det3 (m10 m) (m11 m) (m13 m) (m20 m) (m21 m) (m23 m) (m30 m) (m31 m) (m33 m)
  - m03 m * det3 (m10 m) (m11 m) (m12 m) (m20 m) (m21 m) (m22 m) (m30 m) (m31 m) (m32 m).

(** The adjugate: the transposed matrix of cofactors. *)
Definition adjugate (m : Matrix) : Matrix :=
  mkMatrix
    (  det3 (m11 m) (m12 m) (m13 m) (m21 m) (m22 m) (m23 m) (m31 m) (m32 m) (m33 m))
    (- det3 (m01 m) (m02 m) (m03 m) (m21 m) (m22 m) (m23 m) (m31 m) (m32 m) (m33 m))
    (  det3 (m01 m) (m02 m) (m03 m) (m11 m) (m12 m) (m13 m) (m31 m) (m32 m) (m33 m))
    (- det3 (m01 m) (m02 m) (m03 m) (m11 m) (m12 m) (m13 m) (m21 m) (m22 m) (m23 m))
    (- det3 (m10 m) (m12 m) (m13 m) (m20 m) (m22 m) (m23 m) (m30 m) (m32 m) (m33 m))
    (  det3 (m00 m) (m02 m) (m03 m) (m20 m) (m22 m) (m23 m) (m30 m) (m32 m) (m33 m))
    (- det3 (m00 m) (m02 m) (m03 m) (m10 m) (m12 m) (m13 m) (m30 m) (m32 m) (m33 m))
    (  det3 (m00 m) (m02 m) (m03 m) (m10 m) (m12 m) (m13 m) (m20 m) (m22 m) (m23 m))
    (  det3 (m10 m) (m11 m) (m13 m) (m20 m) (m21 m) (m23 m) (m30 m) (m31 m) (m33 m))
    (- det3 (m00 m) (m01 m) (m03 m) (m20 m) (m21 m) (m23 m) (m30 m) (m31 m) (m33 m))
    (  det3 (m00 m) (m01 m) (m03 m) (m10 m) (m11 m) (m13 m) (m30 m) (m31 m) (m33 m))
    (- det3 (m00 m) (m01 m) (m03 m) (m10 m) (m11 m) (m13 m) (m20 m) (m21 m) (m23 m))
    (- det3 (m10 m) (m11 m) (m12 m) (m20 m) (m21 m) (m22 m) (m30 m) (m31 m) (m32 m))
    (  det3 (m00 m) (m01 m) (m02 m) (m20 m) (m21 m) (m22 m) (m30 m) (m31 m) (m32 m))
    (- det3 (m00 m) (m01 m) (m02 m) (m10 m) (m11 m) (m12 m) (m30 m) (m31 m) (m32 m))
    (  det3 (m00 m) (m01 m) (m02 m) (m10 m) (m11 m) (m12 m) (m20 m) (m21 m) (m22 m)).

(** Every entry multiplied by [k]. *)
Definition scale_by (k : Qc) (m : Matrix) : Matrix :=
  mkMatrix
    (k * m00 m) (k * m01 m) (k * m02 m) (k * m03 m)
    (k * m10 m) (k * m11 m) (k * m12 m) (k * m13 m)
    (k * m20 m) (k * m21 m) (k * m22 m) (k * m23 m)
    (k * m30 m) (k * m31 m) (k * m32 m) (k * m33 m).

(** [m.inverted()]: the adjugate over the determinant; [ValueError]
    when the determinant is zero ("matrix does not have an inverse"). *)
Definition inverted (m : Matrix) : result Matrix :=
  let d := determinant m in
  if eqb d 0 then Raise ValueError else Ok (scale_by (/ d) (adjugate m)).

End Mathutils.

(* ================================================================== *)
(** * bpy: the part of the host state the add-on reads and writes *)
(* ================================================================== *)

Module Camera.
(** A camera datablock ([ob.data] of a camera object). *)
Record t : Set := mk {
  type : string;        (* 'PERSP', 'ORTHO' or 'PANO' *)
  ortho_scale : Qc }.

Definition with_ortho_scale (c : t) (s : Qc) : t := mk (type c) s.
End Camera.

Module Object.
Import Mathutils.

(** [ob.data]: the datablock of the object; an empty has none. *)
Inductive Data : Set :=
| CameraData (c : Camera.t)
| MeshData
| LightData
| NoData.

Record t : Set := mk {
  data : Data;
  matrix_world : Matrix }.

(** [ob.type] is read-only and follows the datablock. *)
Definition type (ob : t) : string :=
  match data ob with
  | CameraData _ => "CAMERA"
  | MeshData => "MESH"
  | LightData => "LIGHT"
  | NoData => "EMPTY"
  end.

Definition with_data (ob : t) (d : Data) : t := mk d (matrix_world ob).
Definition with_matrix_world (ob : t) (m : Matrix) : t := mk (data ob) m.
End Object.

Module Event.
Record t : Set := mk {
  type : string;          (* 'MOUSEMOVE', 'ESC', 'LEFTMOUSE', 'RET', ... *)
  value : string;         (* 'PRESS', 'RELEASE', 'NOTHING', ... *)
  mouse_region_x : Z;
  shift : bool }.
End Event.

Module Context.
Import Mathutils.

(** What the add-on reaches through [context]. *)
Record t : Set := mk {
  object : option Object.t;       (* context.object, the active object *)
  view_perspective : string;      (* context.space_data.region_3d.view_perspective *)
  cursor_matrix : Matrix;         (* context.scene.cursor.matrix *)
  header_text : option string;    (* set by context.area.header_text_set *)
  status_text : option string;    (* set by context.workspace.status_text_set *)
  cursor_modal : option string;   (* set by context.window.cursor_modal_set *)
  modal_handlers : nat }.         (* context.window_manager.modal_handler_add *)

Definition with_object (c : t) (ob : option Object.t) : t :=
  mk ob (view_perspective c) (cursor_matrix c) (header_text c)
     (status_text c) (cursor_modal c) (modal_handlers c).

Definition header_text_set (c : t) (text : option string) : t :=
  mk (object c) (view_perspective c) (cursor_matrix c) text
     (status_text c) (cursor_modal c) (modal_handlers c).

Definition status_text_set (c : t) (text : option string) : t :=
  mk (object c) (view_perspective c) (cursor_matrix c) (header_text c)
     text (cursor_modal c) (modal_handlers c).

Definition cursor_modal_set (c : t) (icon : string) : t :=
  mk (object c) (view_perspective c) (cursor_matrix c) (header_text c)
     (status_text c) (Some icon) (modal_handlers c).

Definition cursor_modal_restore (c : t) : t :=
  mk (object c) (view_perspective c) (cursor_matrix c) (header_text c)
     (status_text c) None (modal_handlers c).

Definition modal_handler_add (c : t) : t :=
  mk (object c) (view_perspective c) (cursor_matrix c) (header_text c)
     (status_text c) (cursor_modal c) (S (modal_handlers c)).
End Context.

(* ================================================================== *)
(** * The add-on *)
(* ================================================================== *)

Import Py Mathutils.
Local Open Scope Qc_scope.
Local Open Scope py_scope.
Local Open Scope string_scope.

(** A reference to an object of the scene.  The operator only ever holds
    the active object. *)
Inductive ObjectRef : Set := ActiveObject.

(** [cam.data.ortho_scale] *)
Definition read_ortho_scale (context : Context.t) (cam : ObjectRef) : result Qc :=
  match Context.object context with
  | Some ob =>
      match Object.data ob with
      | Object.CameraData c => Ok (Camera.ortho_scale c)
      | _ => Raise AttributeError
      end
  | None => Raise AttributeError
  end.

(** [cam.data.ortho_scale = s].  The host clamps the property to
    [[0, inf)]: a negative [s] is stored as 0, which this definition
    does not follow.  The operator writes a value that [max] has put at
    0.01 or above, or a value it read from the camera. *)
Definition write_ortho_scale (context : Context.t) (cam : ObjectRef) (s : Qc)
  : result Context.t :=
  match Context.object context with
  | Some ob =>
      match Object.data ob with
      | Object.CameraData c =>
          Ok (Context.with_object context
                (Some (Object.with_data ob
                         (Object.CameraData (Camera.with_ortho_scale c s)))))
      | _ => Raise AttributeError
      end
  | None => Raise AttributeError
  end.

(** [cam.matrix_world] *)
Definition read_matrix_world (context : Context.t) (cam : ObjectRef) : result Matrix :=
  match Context.object context with
  | Some ob => Ok (Object.matrix_world ob)
  | None => Raise AttributeError
  end.

(** [cam.matrix_world = m] *)
Definition write_matrix_world (context : Context.t) (cam : ObjectRef) (m : Matrix)
  : result Context.t :=
  match Context.object context with
  | Some ob => Ok (Context.with_object context (Some (Object.with_matrix_world ob m)))
  | None => Raise AttributeError
  end.

(** [set_ortho_scale(context, cam, ortho_scale)], lines 97 to 128. *)
Definition set_ortho_scale (context : Context.t) (cam : ObjectRef) (ortho_scale : Qc)
  : result Context.t :=
  cam_ortho_scale <- read_ortho_scale context cam ;;
  let new_ortho_scale := ortho_scale in
  if neqb (round3 cam_ortho_scale) (round3 new_ortho_scale) then
    cam_mat <- read_matrix_world context cam ;;
    let cursor_mat := Context.cursor_matrix context in
    cam_mat_inverted <- inverted cam_mat ;;
    let cursor_matrix_cam_space := cam_mat_inverted @@ cursor_mat in
    let loc := decompose_loc cursor_matrix_cam_space in
    let cursor_offset_x := vx loc in
    let cursor_offset_y := vy loc in
    half <- truediv cam_ortho_scale two ;;
    cursor_perc_x <- truediv cursor_offset_x half ;;
    new_half <- truediv new_ortho_scale two ;;
    let new_cursor_offset_x := cursor_perc_x * new_half in
    let cam_transform_x := new_cursor_offset_x - cursor_offset_x in
    half <- truediv cam_ortho_scale two ;;
    cursor_perc_y <- truediv cursor_offset_y half ;;
    new_half <- truediv new_ortho_scale two ;;
    let new_cursor_offset_y := cursor_perc_y * new_half in
    let cam_transform_y := new_cursor_offset_y - cursor_offset_y in
    let transform_matrix := Translation (- cam_transform_x) (- cam_transform_y) 0 in
    cam_mat <- read_matrix_world context cam ;;
    context <- write_matrix_world context cam (cam_mat @@ transform_matrix) ;;
    write_ortho_scale context cam new_ortho_scale
  else
    Ok context.

(** ** [CAMERA_OT_ortho_scale] *)

(** The instance attributes of the operator. *)
Record Operator : Set := mkOperator {
  cam : option ObjectRef;
  last_mouse_x : Z;
  init_scale : Qc;
  init_matrix : option Matrix }.

(** What [invoke] and [modal] return (a set holding one of these). *)
Inductive status : Set := RUNNING_MODAL | CANCELLED | FINISHED.

(** [self.cam], which must not be [None] when it is dereferenced. *)
Definition deref (r : option ObjectRef) : result ObjectRef :=
  match r with
  | Some r => Ok r
  | None => Raise AttributeError
  end.

(** [poll(cls, context)], lines 31 to 35, by its truth value. *)
Definition poll (context : Context.t) : bool :=
  match Context.object context with
  | None => false
  | Some ob =>
      (Object.type ob =? "CAMERA")
      && match Object.data ob with
         | Object.CameraData c => Camera.type c =? "ORTHO"
         | _ => false
         end
      && (Context.view_perspective context =? "CAMERA")
  end.

(** [__init__(self)], lines 37 to 42. *)
Definition __init__ : Operator :=
  mkOperator None 0%Z 0 None.

(** [invoke(self, context, event)], lines 44 to 55. *)
Definition invoke (self : Operator) (context : Context.t) (event : Event.t)
  : result (status * Operator * Context.t) :=
  let self_cam := option_map (fun _ => ActiveObject) (Context.object context) in
  let self_last_mouse_x := Event.mouse_region_x event in
  c <- deref self_cam ;;
  self_init_scale <- read_ortho_scale context c ;;
  m <- read_matrix_world context c ;;
  let self_init_matrix := Some m in
  let context :=
    Context.status_text_set context (Some "LMB, ENTER: Confirm | RMB, ESC: Cancel") in
  let context := Context.cursor_modal_set context "MOVE_X" in
  let context := Context.modal_handler_add context in
  Ok (RUNNING_MODAL,
      mkOperator self_cam self_last_mouse_x self_init_scale self_init_matrix,
      context).

(** [restore(self)], lines 86 to 88.  [init_matrix] is [None] until
    [invoke] has run; the setter of [matrix_world] refuses it. *)
Definition restore (self : Operator) (context : Context.t) : result Context.t :=
  self_cam <- deref (cam self) ;;
  context <- write_ortho_scale context self_cam (init_scale self) ;;
  self_cam <- deref (cam self) ;;
  match init_matrix self with
  | Some m => write_matrix_world context self_cam m
  | None => Raise ValueError
  end.

(** [finish(context)], lines 90 to 94. *)
Definition finish (context : Context.t) : Context.t :=
  let context := Context.header_text_set context None in
  let context := Context.status_text_set context None in
  Context.cursor_modal_restore context.

(** The sensitivity divisor of a mouse move, line 61. *)
Definition divisor (shift : bool) : Z := if shift then 3000%Z else 300%Z.

(** [modal(self, context, event)], lines 57 to 84. *)
Definition modal (self : Operator) (context : Context.t) (event : Event.t)
  : result (status * Operator * Context.t) :=
  if Event.type event =? "MOUSEMOVE" then
    let mouse_x := Event.mouse_region_x event in
    let divisor := divisor (Event.shift event) in
    let offset_x := (mouse_x - last_mouse_x self)%Z in
    ortho_scale_offset <- truediv (of_int offset_x) (of_int divisor) ;;
    self_cam <- deref (cam self) ;;
    cam_ortho_scale <- read_ortho_scale context self_cam ;;
    let ortho_scale := cam_ortho_scale - ortho_scale_offset in
    let ortho_scale := max ortho_scale c0_01 in
    self_cam <- deref (cam self) ;;
    context <- set_ortho_scale context self_cam ortho_scale ;;
    let context :=
      Context.header_text_set context
        (Some ("Orthographic Scale: " ++ format_3f ortho_scale)) in
    Ok (RUNNING_MODAL,
        mkOperator (cam self) (Event.mouse_region_x event)
                   (init_scale self) (init_matrix self),
        context)
  else if Event.value event =? "PRESS" then
    if (Event.type event =? "ESC") || (Event.type event =? "RIGHTMOUSE") then
      context <- restore self context ;;
      Ok (CANCELLED, self, finish context)
    else if (Event.type event =? "SPACE") || (Event.type event =? "LEFTMOUSE") then
      Ok (FINISHED, self, finish context)
    else
      Ok (RUNNING_MODAL, self, context)
  else
    Ok (RUNNING_MODAL, self, context).

(** ** The host's side of the protocol *)

(** Starting the operator from its key binding: the host calls [poll],
    and runs [invoke] on a fresh instance only when [poll] passed. *)
Inductive activation : Set :=
| Refused
| Started (st : status) (self : Operator).

Definition activate (context : Context.t) (event : Event.t)
  : result (activation * Context.t) :=
  if poll context then
    r <- invoke __init__ context event ;;
    let '(st, self, context) := r in
    Ok (Started st self, context)
  else
    Ok (Refused, context).

(** The modal loop: the host hands every event to [modal] while the
    operator answers [RUNNING_MODAL]. *)
Fixpoint run (self : Operator) (context : Context.t) (events : list Event.t)
  : result (status * Operator * Context.t) :=
  match events with
  | [] => Ok (RUNNING_MODAL, self, context)
  | event :: events =>
      r <- modal self context event ;;
      let '(st, self, context) := r in
      match st with
      | RUNNING_MODAL => run self context events
      | _ => Ok (st, self, context)
      end
  end.

(** ** Vocabulary of the specification *)

(** The camera of a context: scale and world transform of the active
    object when it is a camera. *)
Definition camera_scale (context : Context.t) : option Qc :=
  match Context.object context with
  | Some ob =>
      match Object.data ob with
      | Object.CameraData c => Some (Camera.ortho_scale c)
      | _ => None
      end
  | None => None
  end.

Definition camera_transform (context : Context.t) : option Matrix :=
  match Context.object context with
  | Some ob => Some (Object.matrix_world ob)
  | None => None
  end.

(** The active object is an orthographic camera and the viewport looks
    through the camera. *)
Definition ortho_camera_in_camera_view (context : Context.t) : Prop :=
  exists ob c,
    Context.object context = Some ob
    /\ Object.data ob = Object.CameraData c
    /\ Camera.type c = "ORTHO"
    /\ Context.view_perspective context = "CAMERA".

(** Kinds of events. *)
Definition pointer_move (event : Event.t) : Prop :=
  Event.type event = "MOUSEMOVE".

Definition cancel_input (event : Event.t) : Prop :=
  Event.value event = "PRESS"
  /\ (Event.type event = "ESC" \/ Event.type event = "RIGHTMOUSE").

Definition confirm_input (event : Event.t) : Prop :=
  Event.value event = "PRESS"
  /\ (Event.type event = "SPACE" \/ Event.type event = "LEFTMOUSE").

(** A key or button press that is neither a cancel nor a confirm input.
    Pointer motion is not a press. *)
Definition unrecognized_press (event : Event.t) : Prop :=
  Event.value event = "PRESS"
  /\ Event.type event <> "MOUSEMOVE"
  /\ Event.type event <> "ESC" /\ Event.type event <> "RIGHTMOUSE"
  /\ Event.type event <> "SPACE" /\ Event.type event <> "LEFTMOUSE".

(** Where a world point sits in the frustum of an orthographic camera:
    its offset in the camera's own frame, over the half extent of the
    view, along the camera's X and Y axes. *)
Definition frustum_position (camera : Matrix) (scale : Qc) (point : Vector)
  : result (Qc * Qc) :=
  camera_inverted <- inverted camera ;;
  let local := matvec camera_inverted point in
  half <- truediv scale two ;;
  x <- truediv (vx local) half ;;
  y <- truediv (vy local) half ;;
  Ok (x, y).

(** The compensator as the specification words it: the anchor in the
    camera's frame, its fractions of the current half extent, the offsets
    that keep these fractions at the new scale, and the camera moved by
    the opposite of the difference. *)
Definition compensated_transform
  (cameraTransform inverse : Matrix) (currentScale newScale : Qc)
  (anchorWorldPoint : Vector) : Matrix :=
  let localAnchor := matvec inverse anchorWorldPoint in
  let fracX := vx localAnchor / (currentScale / two) in
  let fracY := vy localAnchor / (currentScale / two) in
  let deltaX := fracX * (newScale / two) - vx localAnchor in
  let deltaY := fracY * (newScale / two) - vy localAnchor in
  cameraTransform @@ Translation (- deltaX) (- deltaY) 0.

(** The target scale of a pointer move, as the specification words it. *)
Definition target_scale (scale : Qc) (pointerX lastPointerX : Z) (precision : bool)
  : Qc :=
  let offsetX := (pointerX - lastPointerX)%Z in
  let divisor := if precision then 3000%Z else 300%Z in
  let scaleDelta := of_int offsetX / of_int divisor in
  max (scale - scaleDelta) c0_01.

(** The scale delta of a pointer offset, lines 61 to 64 of the source. *)
Definition ortho_scale_offset (offset_x : Z) (shift : bool) : result Qc :=
  truediv (of_int offset_x) (of_int (divisor shift)).

(** [n] calls of [set_ortho_scale] in a row with the same argument. *)
Fixpoint set_ortho_scale_times (n : nat) (context : Context.t) (cam : ObjectRef)
  (ortho_scale : Qc) : result Context.t :=
  match n with
  | O => Ok context
  | S n =>
      context <- set_ortho_scale context cam ortho_scale ;;
      set_ortho_scale_times n context cam ortho_scale
  end.

(** ** Invariants of a running session *)

(** The operator holds the camera and the snapshot [S0], [T0] taken by
    [invoke], and the active object is still a camera. *)
Definition in_session (S0 : Qc) (T0 : Matrix) (self : Operator) (context : Context.t)
  : Prop :=
  cam self = Some ActiveObject
  /\ init_scale self = S0
  /\ init_matrix self = Some T0
  /\ exists s, camera_scale context = Some s.

(** The preconditions of the compensator: a positive scale and an
    invertible world transform. *)
Definition sound_camera (context : Context.t) : Prop :=
  exists s m,
    camera_scale context = Some s /\ camera_transform context = Some m
    /\ 0 < s /\ determinant m <> 0.

(** ** A sample scene *)

(** An orthographic camera at [(1, 2, 3)] looking along its own axes, the
    cursor at [(4, 6, 0)], the viewport in camera view. *)
Definition sample_camera (scale : Qc) : Object.t :=
  Object.mk (Object.CameraData (Camera.mk "ORTHO" scale))
            (Translation (of_int 1) (of_int 2) (of_int 3)).

Definition sample_context (scale : Qc) : Context.t :=
  Context.mk (Some (sample_camera scale)) "CAMERA"
             (Translation (of_int 4) (of_int 6) 0) None None None 0.

Definition sample_anchor : Vector := mkVector (of_int 4) (of_int 6) 0.

Definition mouse_move (x : Z) (shift : bool) : Event.t :=
  Event.mk "MOUSEMOVE" "NOTHING" x shift.

Definition key_press (type : string) : Event.t :=
  Event.mk type "PRESS" 0 false.

(** The key press that starts the operator, the pointer being at [x]. *)
Definition start_press (x : Z) : Event.t := Event.mk "S" "PRESS" x false.

(** The operator and the context right after [invoke] on the sample
    scene, the pointer being at [x]. *)
Definition sample_operator (x : Z) (scale : Qc) : Operator :=
  mkOperator (Some ActiveObject) x scale
             (Some (Translation (of_int 1) (of_int 2) (of_int 3))).

Definition sample_started (scale : Qc) : Context.t :=
  Context.modal_handler_add
    (Context.cursor_modal_set
       (Context.status_text_set (sample_context scale)
          (Some "LMB, ENTER: Confirm | RMB, ESC: Cancel"))
       "MOVE_X").

(** A whole session: [invoke], then the modal loop over the events. *)
Definition session (context : Context.t) (event0 : Event.t) (events : list Event.t)
  : result (status * Operator * Context.t) :=
  r <- invoke __init__ context event0 ;;
  let '(_, self, context) := r in
  run self context events.

(* ================================================================== *)
(** * Further vocabulary: events, frames, registration *)
(* ================================================================== *)

Local Open Scope Qc_scope.
Unset Implicit Arguments.

(** ** Events that keep the session running *)

Definition is_mousemove (event : Event.t) : bool :=
  Event.type event =? "MOUSEMOVE".

(** An input [modal] does nothing with: not a pointer move, and either
    not a press or a press of another key or button than the four that
    end the session. *)
Definition ignored_input (event : Event.t) : Prop :=
  Event.type event <> "MOUSEMOVE"
  /\ (Event.value event <> "PRESS"
      \/ (Event.type event <> "ESC" /\ Event.type event <> "RIGHTMOUSE"
          /\ Event.type event <> "SPACE" /\ Event.type event <> "LEFTMOUSE")).

Definition keeps_running (event : Event.t) : Prop :=
  pointer_move event \/ ignored_input event.

(** A drag in steps too small to change the third decimal of the scale:
    every pointer move is less than half a thousandth of a scale unit
    away from the position stored before it. *)
Fixpoint slow_drag (last : Z) (events : list Event.t) : Prop :=
  match events with
  | [] => True
  | event :: events =>
      if is_mousemove event then
        (2000 * Z.abs (Event.mouse_region_x event - last)
         < divisor (Event.shift event))%Z
        /\ slow_drag (Event.mouse_region_x event) events
      else
        ignored_input event /\ slow_drag last events
  end.

(** ** The camera and its frame *)

(** The three axis columns of two matrices agree. *)
Definition same_axes (a b : Matrix) : Prop :=
  m00 a = m00 b /\ m01 a = m01 b /\ m02 a = m02 b
  /\ m10 a = m10 b /\ m11 a = m11 b /\ m12 a = m12 b
  /\ m20 a = m20 b /\ m21 a = m21 b /\ m22 a = m22 b
  /\ m30 a = m30 b /\ m31 a = m31 b /\ m32 a = m32 b.

(** The offset that keeps the fraction of the half extent that [l] is
    at scale [cur], at scale [new]: [new_cursor_offset_x] of the source. *)
Definition kept_offset (l cur new : Qc) : Qc := l / (cur / two) * (new / two).

Definition camera_object (type : string) (scale : Qc) (m : Matrix) : Object.t :=
  Object.mk (Object.CameraData (Camera.mk type scale)) m.

(** [b] is [a] but for the world matrix and scale of its camera and for
    the header text. *)
Definition only_camera_and_header (a b : Context.t) : Prop :=
  exists type s m s' m' header,
    Context.object a = Some (camera_object type s m)
    /\ b = Context.mk (Some (camera_object type s' m'))
             (Context.view_perspective a) (Context.cursor_matrix a) header
             (Context.status_text a) (Context.cursor_modal a)
             (Context.modal_handlers a).

(** ** More of the sample scene *)

(** A world matrix of determinant zero: an object scaled to nothing
    along its Z axis. *)
Definition squashed : Matrix :=
  mkMatrix 1 0 0 0
           0 1 0 0
           0 0 0 0
           0 0 0 1.

Definition squashed_context (scale : Qc) : Context.t :=
  Context.mk (Some (camera_object "ORTHO" scale squashed)) "CAMERA"
             (Translation (of_int 4) (of_int 6) 0) None None None 0.

(** The sample camera with the cursor on its axis. *)
Definition centered_context (scale : Qc) : Context.t :=
  Context.mk (Some (sample_camera scale)) "CAMERA"
             (Translation (of_int 1) (of_int 2) 0) None None None 0.

(** The sample camera after a rescale from 6 to 5. *)
Definition sample_rescaled_camera : Object.t :=
  camera_object "ORTHO" (of_int 5)
    (Translation (of_int 1) (of_int 2) (of_int 3)
     @@ Translation (Q2Qc (1 # 2)) (Q2Qc (2 # 3)) 0).

Definition sample_rescaled : Context.t :=
  Context.with_object (sample_context (of_int 6)) (Some sample_rescaled_camera).

(** The started sample session after a drag of 300 pixels to the right. *)
Definition sample_dragged : Context.t :=
  Context.header_text_set
    (Context.with_object (sample_started (of_int 6)) (Some sample_rescaled_camera))
    (Some "Orthographic Scale: 5.000").

(** ** Registration: classes and key bindings *)

(** [register], [unregister] and the two keymap functions work on the
    host's class registry and key configurations and on the module's
    global list [addon_keymaps].  The host calls behave as Blender
    documents them: [keymaps.new] returns the keymap of that name and
    space type and creates it only when it is missing,
    [keymap_items.new] appends an item with a fresh id,
    [keymap_items.remove] raises [RuntimeError] for an item that is not
    in the keymap, [register_class] raises [ValueError] for a class
    that is registered already and [unregister_class] raises
    [RuntimeError] for one that is not.  A pair [(km, kmi)] of
    [addon_keymaps] is a reference to a keymap and the id of an item. *)

Module Keys.

(** An item of a keymap.  [id] is the number the host gives an item when
    it is created; it tells the items of one keymap apart. *)
Record KeyMapItem : Set := mkKeyMapItem {
  id : nat;
  idname : string;      (* the operator the item calls *)
  type : string;        (* 'S', ... *)
  value : string;       (* 'PRESS', ... *)
  alt : bool }.

(** A keymap: its items in order, and the last id given ([kmi_id]). *)
Record KeyMap : Set := mkKeyMap {
  name : string;
  space_type : string;
  keymap_items : list KeyMapItem;
  kmi_id : nat }.

(** A key configuration, by its [keymaps]. *)
Definition KeyConfig : Set := list KeyMap.

(** A reference to a keymap of a configuration. *)
Definition KeyMapRef : Set := (string * string)%type.

Definition is_keymap (ref : KeyMapRef) (km : KeyMap) : bool :=
  (name km =? fst ref) && (space_type km =? snd ref).

Definition find_keymap (kc : KeyConfig) (ref : KeyMapRef) : option KeyMap :=
  find (is_keymap ref) kc.

(** Replaces the keymap a reference points to. *)
Fixpoint update_keymap (kc : KeyConfig) (ref : KeyMapRef) (km' : KeyMap)
  : KeyConfig :=
  match kc with
  | [] => []
  | km :: kc =>
      if is_keymap ref km then km' :: kc else km :: update_keymap kc ref km'
  end.

(** [kc.keymaps.new(name, space_type)]: the keymap of that name and space
    type, created empty when there is none. *)
Definition keymaps_new (kc : KeyConfig) (name space_type : string)
  : KeyConfig * KeyMapRef :=
  match find_keymap kc (name, space_type) with
  | Some _ => (kc, (name, space_type))
  | None => ((kc ++ [mkKeyMap name space_type [] 0])%list, (name, space_type))
  end.

(** [kc.keymaps.get(name)] *)
Definition keymaps_get (kc : KeyConfig) (km_name : string) : option KeyMap :=
  find (fun km => name km =? km_name) kc.

End Keys.

(** The result of code that can raise, the exception by its class name. *)
Inductive outcome (A : Type) : Type :=
| Done (a : A)
| Failed (exception : string).
Arguments Done {A} a.
Arguments Failed {A} exception.

Definition and_then {A B : Type} (r : outcome A) (k : A -> outcome B) : outcome B :=
  match r with
  | Done a => k a
  | Failed e => Failed e
  end.

(** The host's registries and the module's global [addon_keymaps]. *)
Record Addon : Set := mkAddon {
  registered_classes : list string;
  keyconfigs_addon : option Keys.KeyConfig;   (* None without a window *)
  keyconfigs_user : Keys.KeyConfig;
  addon_keymaps : list (Keys.KeyMapRef * nat) }.

(** [km.keymap_items.new(idname, type, value, alt=alt)] *)
Definition keymap_items_new (kc : Keys.KeyConfig) (km : Keys.KeyMapRef)
  (idname type value : string) (alt : bool) : outcome (Keys.KeyConfig * nat) :=
  match Keys.find_keymap kc km with
  | Some k =>
      let id := S (Keys.kmi_id k) in
      let kmi := Keys.mkKeyMapItem id idname type value alt in
      Done (Keys.update_keymap kc km
              (Keys.mkKeyMap (Keys.name k) (Keys.space_type k)
                 (Keys.keymap_items k ++ [kmi])%list id),
            id)
  | None => Failed "ReferenceError"
  end.

(** [km.keymap_items.remove(kmi)] *)
Definition keymap_items_remove (kc : Keys.KeyConfig) (km : Keys.KeyMapRef)
  (kmi : nat) : outcome Keys.KeyConfig :=
  match Keys.find_keymap kc km with
  | Some k =>
      if existsb (fun i => Keys.id i =? kmi)%nat (Keys.keymap_items k) then
        Done (Keys.update_keymap kc km
                (Keys.mkKeyMap (Keys.name k) (Keys.space_type k)
                   (filter (fun i => negb (Keys.id i =? kmi)%nat)
                      (Keys.keymap_items k))
                   (Keys.kmi_id k)))
      else Failed "RuntimeError"
  | None => Failed "ReferenceError"
  end.

(** [bpy.utils.register_class(cls)] *)
Definition register_class (cls : string) (a : Addon) : outcome Addon :=
  if existsb (String.eqb cls) (registered_classes a) then Failed "ValueError"
  else Done (mkAddon (registered_classes a ++ [cls])%list (keyconfigs_addon a)
               (keyconfigs_user a) (addon_keymaps a)).

(** [bpy.utils.unregister_class(cls)] *)
Definition unregister_class (cls : string) (a : Addon) : outcome Addon :=
  if existsb (String.eqb cls) (registered_classes a) then
    Done (mkAddon (filter (fun c => negb (cls =? c)) (registered_classes a))
            (keyconfigs_addon a) (keyconfigs_user a) (addon_keymaps a))
  else Failed "RuntimeError".

(** [classes], lines 162 to 165. *)
Definition classes : list string :=
  ["CAMERA_OT_ortho_scale"; "OrthoScalePreferences"].

(** [register_keymaps()], lines 171 to 177. *)
Definition register_keymaps (a : Addon) : outcome Addon :=
  match keyconfigs_addon a with
  | Some kc =>
      let '(kc, km) := Keys.keymaps_new kc "Object Mode" "EMPTY" in
      and_then (keymap_items_new kc km "camera.ortho_scale" "S" "PRESS" true)
        (fun '(kc, kmi) =>
           Done (mkAddon (registered_classes a) (Some kc) (keyconfigs_user a)
                   (addon_keymaps a ++ [(km, kmi)])%list))
  | None => Done a
  end.

(** The loop of [unregister_keymaps] over the pairs still to visit. *)
Fixpoint remove_keymap_items (pairs : list (Keys.KeyMapRef * nat)) (a : Addon)
  : outcome Addon :=
  match pairs with
  | [] => Done a
  | (km, kmi) :: pairs =>
      match keyconfigs_addon a with
      | Some kc =>
          and_then (keymap_items_remove kc km kmi)
            (fun kc =>
               remove_keymap_items pairs
                 (mkAddon (registered_classes a) (Some kc) (keyconfigs_user a)
                    (addon_keymaps a)))
      | None => Failed "ReferenceError"
      end
  end.

(** [unregister_keymaps()], lines 180 to 183. *)
Definition unregister_keymaps (a : Addon) : outcome Addon :=
  and_then (remove_keymap_items (addon_keymaps a) a)
    (fun a =>
       Done (mkAddon (registered_classes a) (keyconfigs_addon a)
               (keyconfigs_user a) [])).

(** A [for] loop that calls [f] on every class. *)
Fixpoint for_each (f : string -> Addon -> outcome Addon) (l : list string)
  (a : Addon) : outcome Addon :=
  match l with
  | [] => Done a
  | cls :: l => and_then (f cls a) (for_each f l)
  end.

(** [register()], lines 186 to 191. *)
Definition register (a : Addon) : outcome Addon :=
  and_then (for_each register_class classes a) register_keymaps.

(** [unregister()], lines 194 to 199. *)
Definition unregister (a : Addon) : outcome Addon :=
  and_then (for_each unregister_class (rev classes) a) unregister_keymaps.

(** The items of a keymap of the add-on configuration, none when the
    keymap or the configuration is missing. *)
Definition items_of (a : Addon) (km : Keys.KeyMapRef) : list Keys.KeyMapItem :=
  match keyconfigs_addon a with
  | Some kc =>
      match Keys.find_keymap kc km with
      | Some k => Keys.keymap_items k
      | None => []
      end
  | None => []
  end.

(** Every item of every keymap has an id the keymap has already given. *)
Definition ids_given (kc : Keys.KeyConfig) : Prop :=
  Forall (fun k =>
            Forall (fun i => (Keys.id i <= Keys.kmi_id k)%nat) (Keys.keymap_items k))
         kc.

Definition sample_addon : Addon :=
  mkAddon ["VIEW3D_OT_other"]
    (Some [Keys.mkKeyMap "Object Mode" "EMPTY"
             [Keys.mkKeyMapItem 1 "object.other" "G" "PRESS" false] 1;
           Keys.mkKeyMap "Window" "EMPTY" [] 0])
    [] [].

(** Two references to the same keymap. *)
Definition same_ref (p q : Keys.KeyMapRef) : bool :=
  (fst p =? fst q) && (snd p =? snd q).

Definition items_in (kc : Keys.KeyConfig) (q : Keys.KeyMapRef)
  : list Keys.KeyMapItem :=
  match Keys.find_keymap kc q with
  | Some k => Keys.keymap_items k
  | None => []
  end.

(* ================================================================== *)
(** * The arithmetic of floats as a parameter *)
(* ================================================================== *)

(** The scalar lines of the add-on divide, multiply and subtract Python
    floats: line 64 in [modal], lines 112 to 123 in [set_ortho_scale].
    [Arith] holds these three operations, so that the same lines can be
    read with the exact operations ([rational], the reading of the
    definitions above) and with the doubles of Python ([binary64]).
    Comparisons, [max], [round] and the unary minus are exact on
    doubles, and the matrices are the host's: they are the same in both
    readings. *)
Record Arith : Set := mkArith {
  fdiv : Qc -> Qc -> result Qc;   (* a / b *)
  fmul : Qc -> Qc -> Qc;          (* a * b *)
  fsub : Qc -> Qc -> Qc }.        (* a - b *)

Definition rational : Arith := mkArith truediv Qcmult Qcminus.

Definition binary64 : Arith :=
  mkArith Binary64.truediv Binary64.mul Binary64.sub.

(** [set_ortho_scale(context, cam, ortho_scale)], lines 97 to 128, over
    an arithmetic. *)
Definition set_ortho_scale_in (A : Arith)
  (context : Context.t) (cam : ObjectRef) (ortho_scale : Qc) : result Context.t :=
  cam_ortho_scale <- read_ortho_scale context cam ;;
  let new_ortho_scale := ortho_scale in
  if neqb (round3 cam_ortho_scale) (round3 new_ortho_scale) then
    cam_mat <- read_matrix_world context cam ;;
    let cursor_mat := Context.cursor_matrix context in
    cam_mat_inverted <- inverted cam_mat ;;
    let cursor_matrix_cam_space := cam_mat_inverted @@ cursor_mat in
    let loc := decompose_loc cursor_matrix_cam_space in
    let cursor_offset_x := vx loc in
    let cursor_offset_y := vy loc in
    half <- fdiv A cam_ortho_scale two ;;
    cursor_perc_x <- fdiv A cursor_offset_x half ;;
    new_half <- fdiv A new_ortho_scale two ;;
    let new_cursor_offset_x := fmul A cursor_perc_x new_half in
    let cam_transform_x := fsub A new_cursor_offset_x cursor_offset_x in
    half <- fdiv A cam_ortho_scale two ;;
    cursor_perc_y <- fdiv A cursor_offset_y half ;;
    new_half <- fdiv A new_ortho_scale two ;;
    let new_cursor_offset_y := fmul A cursor_perc_y new_half in
    let cam_transform_y := fsub A new_cursor_offset_y cursor_offset_y in
    let transform_matrix := Translation (- cam_transform_x) (- cam_transform_y) 0 in
    cam_mat <- read_matrix_world context cam ;;
    context <- write_matrix_world context cam (cam_mat @@ transform_matrix) ;;
    write_ortho_scale context cam new_ortho_scale
  else
    Ok context.


(** The scale delta of a pointer offset, lines 61 to 64, over an
    arithmetic. *)
Definition ortho_scale_offset_in (A : Arith) (offset_x : Z) (shift : bool)
  : result Qc :=
  fdiv A (of_int offset_x) (of_int (divisor shift)).

(** [frustum_position], the two quotients taken in an arithmetic. *)
Definition frustum_position_in (A : Arith)
  (camera : Matrix) (scale : Qc) (point : Vector) : result (Qc * Qc) :=
  camera_inverted <- inverted camera ;;
  let local := matvec camera_inverted point in
  half <- fdiv A scale two ;;
  x <- fdiv A (vx local) half ;;
  y <- fdiv A (vy local) half ;;
  Ok (x, y).

(** ** Rounding error *)

(** [x] is [e] up to a relative error of [u]: [x = e * (1 + d)] for some
    [d] between [-u] and [u].  A rounding to the nearest double is
    within [Binary64.unit_roundoff] of the exact result, unless the
    result overflows or falls below the normal range. *)
Definition within (u x e : Qc) : Prop :=
  exists d : Qc, - u <= d /\ d <= u /\ x = e * (1 + d).


(** The largest relative error the bounds below are stated for. *)
Definition c1_8 : Qc := Q2Qc (1 # 8).

(** ** Checking the doubles on a range of offsets *)

(** [within u x e] as a test: [|x - e| <= u * |e|]. *)
Definition withinb (u x e : Qc) : bool :=
  Qle_bool (Qabs (this x - this e)) (this u * Qabs (this e)).

(** Both quotients of line 64 return on the doubles of Python, each
    within the unit roundoff of the exact quotient. *)
Definition offset_accurateb (offset_x : Z) : bool :=
  match ortho_scale_offset_in binary64 offset_x true,
        ortho_scale_offset_in binary64 offset_x false with
  | Ok fine, Ok coarse =>
      withinb Binary64.unit_roundoff fine (of_int offset_x / of_int 3000)
      && withinb Binary64.unit_roundoff coarse (of_int offset_x / of_int 300)
  | _, _ => false
  end.

(** The [n] ints from [lo] on. *)
Fixpoint upto (lo : Z) (n : nat) : list Z :=
  match n with
  | O => []
  | S n => lo :: upto (lo + 1) n
  end.

(* ================================================================== *)
(** * Facts about numbers *)
(* ================================================================== *)

Local Open Scope Qc_scope.
Unset Implicit Arguments.

(** Arithmetic and library calls stay folded under [cbn]. *)
Arguments truediv : simpl never.
Arguments inverted : simpl never.
Arguments round3 : simpl never.
Arguments neqb : simpl never.
Arguments max : simpl never.
Arguments matmul : simpl never.
Arguments decompose_loc : simpl never.
Arguments Translation : simpl never.
Arguments format_3f : simpl never.
Arguments of_int : simpl never.
Arguments Qcplus : simpl never.
Arguments Qcmult : simpl never.
Arguments Qcopp : simpl never.
Arguments Qcminus : simpl never.
Arguments Qcdiv : simpl never.
Arguments Qcinv : simpl never.
Arguments Q2Qc : simpl never.
Arguments String.eqb : simpl nomatch.

Lemma eqb_eq (a b : Qc) : eqb a b = true <-> a = b.
Proof.
  unfold eqb; split.
  - apply Qc_eq_bool_correct.
  - intros ->. unfold Qc_eq_bool. destruct (Qc_eq_dec b b); congruence.
Qed.

Lemma eqb_neq (a b : Qc) : eqb a b = false <-> a <> b.
Proof.
  rewrite <- eqb_eq. destruct (eqb a b); split; congruence.
Qed.

Lemma neqb_false (a b : Qc) : neqb a b = false <-> a = b.
Proof.
  unfold neqb. rewrite negb_false_iff. apply eqb_eq.
Qed.

Lemma neqb_true (a b : Qc) : neqb a b = true <-> a <> b.
Proof.
  unfold neqb. rewrite negb_true_iff. apply eqb_neq.
Qed.

Lemma ltb_lt (a b : Qc) : ltb a b = true <-> a < b.
Proof.
  unfold ltb. rewrite Qclt_alt. destruct (a ?= b); split; congruence.
Qed.

Lemma max_ge_r (a b : Qc) : b <= max a b.
Proof.
  unfold max. destruct (ltb a b) eqn:E.
  - apply Qcle_refl.
  - apply Qcnot_lt_le. intros H. apply ltb_lt in H. congruence.
Qed.

Lemma max_ge_l (a b : Qc) : a <= max a b.
Proof.
  unfold max. destruct (ltb a b) eqn:E.
  - apply Qclt_le_weak, ltb_lt, E.
  - apply Qcle_refl.
Qed.


Lemma two_neq_0 : two <> 0.
Proof.
  intros H. apply eqb_eq in H. discriminate H.
Qed.

Lemma c0_01_pos : 0 < c0_01.
Proof. reflexivity. Qed.


Lemma of_int_divisor_neq_0 (shift : bool) : of_int (divisor shift) <> 0.
Proof.
  intros H. apply eqb_eq in H. destruct shift; discriminate H.
Qed.

Lemma truediv_ok (a b : Qc) : b <> 0 -> truediv a b = Ok (a / b).
Proof.
  intros H. unfold truediv. apply eqb_neq in H. rewrite H. reflexivity.
Qed.

Lemma truediv_zero (a : Qc) : truediv a 0 = Raise ZeroDivisionError.
Proof. reflexivity. Qed.

Lemma half_neq_0 (s : Qc) : s <> 0 -> s / two <> 0.
Proof.
  intros Hs H. apply Hs.
  replace s with (s / two * two) by (field; apply two_neq_0).
  rewrite H. ring.
Qed.


Lemma pos_neq_0 (s : Qc) : 0 < s -> s <> 0.
Proof.
  intros H E. subst s. exact (Qclt_not_eq _ _ H eq_refl).
Qed.

(* ================================================================== *)
(** * Facts about matrices *)
(* ================================================================== *)

Lemma Matrix_ext (a b : Matrix) :
  m00 a = m00 b -> m01 a = m01 b -> m02 a = m02 b -> m03 a = m03 b ->
  m10 a = m10 b -> m11 a = m11 b -> m12 a = m12 b -> m13 a = m13 b ->
  m20 a = m20 b -> m21 a = m21 b -> m22 a = m22 b -> m23 a = m23 b ->
  m30 a = m30 b -> m31 a = m31 b -> m32 a = m32 b -> m33 a = m33 b ->
  a = b.
Proof.
  destruct a, b; cbn; intros; subst; reflexivity.
Qed.

Ltac matrix_entries :=
  unfold matmul, scale_by, adjugate, determinant, det3, identity, Translation;
  cbn [m00 m01 m02 m03 m10 m11 m12 m13 m20 m21 m22 m23 m30 m31 m32 m33].

Ltac matrix_ring := apply Matrix_ext; matrix_entries; ring.

Lemma matmul_assoc (a b c : Matrix) : a @@ (b @@ c) = (a @@ b) @@ c.
Proof. matrix_ring. Qed.

Lemma matmul_1_l (a : Matrix) : identity @@ a = a.
Proof. matrix_ring. Qed.

Lemma matmul_1_r (a : Matrix) : a @@ identity = a.
Proof. matrix_ring. Qed.

Lemma scale_by_matmul_l (k : Qc) (a b : Matrix) :
  scale_by k a @@ b = scale_by k (a @@ b).
Proof. matrix_ring. Qed.

Lemma scale_by_matmul_r (k : Qc) (a b : Matrix) :
  a @@ scale_by k b = scale_by k (a @@ b).
Proof. matrix_ring. Qed.

Lemma adjugate_l (m : Matrix) :
  adjugate m @@ m = scale_by (determinant m) identity.
Proof. matrix_ring. Qed.

Lemma adjugate_r (m : Matrix) :
  m @@ adjugate m = scale_by (determinant m) identity.
Proof. matrix_ring. Qed.

Lemma scale_by_inv (d : Qc) :
  d <> 0 -> scale_by (/ d) (scale_by d identity) = identity.
Proof.
  intros Hd. apply Matrix_ext; matrix_entries; field; exact Hd.
Qed.

Lemma Translation_inverse (x y z : Qc) :
  Translation (- x) (- y) (- z) @@ Translation x y z = identity
  /\ Translation x y z @@ Translation (- x) (- y) (- z) = identity.
Proof. split; matrix_ring. Qed.

Lemma determinant_translated (m : Matrix) (x y z : Qc) :
  determinant (m @@ Translation x y z) = determinant m.
Proof. matrix_entries; ring. Qed.

(** A left and a right inverse of the same matrix are equal. *)
Lemma inverse_unique (m a b : Matrix) :
  a @@ m = identity -> m @@ b = identity -> a = b.
Proof.
  intros Ha Hb.
  rewrite <- (matmul_1_r a), <- Hb, matmul_assoc, Ha.
  apply matmul_1_l.
Qed.

(** [inverted] answers exactly when the determinant is not zero, and
    then with a two-sided inverse. *)
Lemma inverted_det (m : Matrix) :
  determinant m <> 0 ->
  inverted m = Ok (scale_by (/ determinant m) (adjugate m)).
Proof.
  intros Hd. unfold inverted. apply eqb_neq in Hd. rewrite Hd. reflexivity.
Qed.

Lemma inverted_singular (m : Matrix) :
  determinant m = 0 -> inverted m = Raise ValueError.
Proof.
  intros Hd. unfold inverted. apply eqb_eq in Hd. rewrite Hd. reflexivity.
Qed.

Lemma inverted_Ok_det (m mi : Matrix) :
  inverted m = Ok mi -> determinant m <> 0.
Proof.
  intros H E. rewrite (inverted_singular _ E) in H. discriminate H.
Qed.

Lemma inverted_Ok (m mi : Matrix) :
  inverted m = Ok mi -> mi @@ m = identity /\ m @@ mi = identity.
Proof.
  intros H. pose proof (inverted_Ok_det _ _ H) as Hd.
  rewrite (inverted_det _ Hd) in H. injection H as <-.
  split.
  - rewrite scale_by_matmul_l, adjugate_l. apply scale_by_inv, Hd.
  - rewrite scale_by_matmul_r, adjugate_r. apply scale_by_inv, Hd.
Qed.

Lemma inverted_of_inverse (m mi : Matrix) :
  mi @@ m = identity -> determinant m <> 0 -> inverted m = Ok mi.
Proof.
  intros Hl Hd. rewrite (inverted_det _ Hd). f_equal.
  symmetry. apply (inverse_unique m); [exact Hl |].
  apply (inverted_Ok m _). apply inverted_det, Hd.
Qed.



(* ================================================================== *)
(** * Facts about the compensator *)
(* ================================================================== *)

(** The translation column of a product, when the right factor is the
    matrix of a point. *)
Lemma decompose_loc_matmul (a b : Matrix) :
  m33 b = 1 -> decompose_loc (a @@ b) = matvec a (translation b).
Proof.
  intros H. unfold decompose_loc, matvec, translation, decompose_loc, matmul.
  cbn [m03 m13 m23 vx vy vz]. rewrite H. f_equal; ring.
Qed.

(** A context whose active object is a camera. *)
Lemma camera_context (context : Context.t) (s : Qc) :
  camera_scale context = Some s ->
  exists ty m,
    Context.object context
    = Some (Object.mk (Object.CameraData (Camera.mk ty s)) m).
Proof.
  unfold camera_scale. destruct (Context.object context) as [[d m] |]; [| discriminate].
  cbn. destruct d as [[ty s'] | | |]; try discriminate.
  cbn. intros [= ->]. eauto.
Qed.

(** The guard of [set_ortho_scale] closed: nothing is written. *)
Lemma set_ortho_scale_skip (context : Context.t) (cur new : Qc) :
  camera_scale context = Some cur ->
  round3 cur = round3 new ->
  set_ortho_scale context ActiveObject new = Ok context.
Proof.
  intros Hs Hr. destruct (camera_context _ _ Hs) as (ty & m & Hob).
  unfold set_ortho_scale, read_ortho_scale. rewrite Hob. cbn.
  apply neqb_false in Hr. rewrite Hr. reflexivity.
Qed.

(** The guard open: both attributes are written, from the values the
    source computes. *)
Lemma set_ortho_scale_apply (context : Context.t) (ty : string) (cur new : Qc)
  (m inv : Matrix) :
  Context.object context = Some (Object.mk (Object.CameraData (Camera.mk ty cur)) m) ->
  round3 cur <> round3 new ->
  inverted m = Ok inv ->
  cur <> 0 ->
  let loc := decompose_loc (inv @@ Context.cursor_matrix context) in
  let tx := vx loc / (cur / two) * (new / two) - vx loc in
  let ty' := vy loc / (cur / two) * (new / two) - vy loc in
  set_ortho_scale context ActiveObject new
  = Ok (Context.with_object context
          (Some (Object.mk (Object.CameraData (Camera.mk ty new))
                           (m @@ Translation (- tx) (- ty') 0)))).
Proof.
  intros Hob Hr Hinv Hcur loc tx ty'.
  unfold set_ortho_scale, read_ortho_scale, read_matrix_world. rewrite Hob. cbn.
  apply neqb_true in Hr. rewrite Hr. rewrite Hinv. cbn.
  repeat (rewrite truediv_ok
            by first [apply two_neq_0 | apply half_neq_0; exact Hcur]; cbn).
  unfold write_matrix_world. rewrite Hob. cbn.
  reflexivity.
Qed.

(** Whatever [set_ortho_scale] answers on a camera, it answers with the
    same context or with a camera holding the requested scale. *)
Lemma set_ortho_scale_result (context context' : Context.t) (cur new : Qc) :
  camera_scale context = Some cur ->
  set_ortho_scale context ActiveObject new = Ok context' ->
  context' = context
  \/ (camera_scale context' = Some new
      /\ exists m inv tx ty,
           camera_transform context = Some m
           /\ inverted m = Ok inv
           /\ camera_transform context' = Some (m @@ Translation tx ty 0)).
Proof.
  intros Hs. destruct (camera_context _ _ Hs) as (ty & m & Hob).
  destruct (Qc_eq_dec (round3 cur) (round3 new)) as [Hr | Hr].
  - rewrite (set_ortho_scale_skip _ cur new Hs Hr). intros [= <-]. now left.
  - destruct (inverted m) as [inv | e] eqn:Hinv.
    + destruct (Qc_eq_dec cur 0) as [Hc | Hc].
      * unfold set_ortho_scale, read_ortho_scale, read_matrix_world.
        rewrite Hob. cbn. apply neqb_true in Hr. rewrite Hr, Hinv. cbn.
        rewrite (truediv_ok cur two two_neq_0). cbn.
        subst cur. replace (0 / two) with 0 by (field; apply two_neq_0).
        rewrite truediv_zero. cbn. discriminate.
      * rewrite (set_ortho_scale_apply _ ty cur new m inv Hob Hr Hinv Hc).
        intros [= <-]. right. split; [reflexivity |].
        unfold camera_transform. rewrite Hob. cbn. eauto 8.
    + unfold set_ortho_scale, read_ortho_scale, read_matrix_world.
      rewrite Hob. cbn. apply neqb_true in Hr. rewrite Hr, Hinv. cbn. discriminate.
Qed.

(** On a sound camera [set_ortho_scale] cannot fail, and a positive
    request leaves the camera sound. *)
Lemma set_ortho_scale_total (context : Context.t) (new : Qc) :
  sound_camera context ->
  0 < new ->
  exists context',
    set_ortho_scale context ActiveObject new = Ok context'
    /\ sound_camera context'.
Proof.
  intros (s & m & Hs & Hm & Hpos & Hdet) Hnew.
  destruct (camera_context _ _ Hs) as (ty & m' & Hob).
  assert (m' = m) as -> by (unfold camera_transform in Hm; rewrite Hob in Hm;
                            cbn in Hm; congruence).
  destruct (Qc_eq_dec (round3 s) (round3 new)) as [Hr | Hr].
  - exists context. split; [apply (set_ortho_scale_skip _ s new Hs Hr) |].
    exists s, m. auto.
  - pose proof (inverted_det m Hdet) as Hinv.
    eexists. split.
    + apply (set_ortho_scale_apply _ ty s new m _ Hob Hr Hinv (pos_neq_0 s Hpos)).
    + eexists new, _. unfold camera_scale, camera_transform. cbn.
      repeat split; [exact Hnew |].
      rewrite determinant_translated. exact Hdet.
Qed.



(* ================================================================== *)
(** * Facts about rounding errors *)
(* ================================================================== *)

Section RoundingError.
Local Open Scope Q_scope.







Lemma two_roundings (u d1 d2 : Q) :
  0 <= u -> u <= 1 # 8 -> - u <= d1 <= u -> - u <= d2 <= u ->
  - (3 * u) <= (1 + d1) / (1 + d2) - 1 /\ (1 + d1) / (1 + d2) - 1 <= 3 * u.
Proof.
  intros Hu0 Hu [L1 H1] [L2 H2].
  assert (Hb : 0 < 1 + d2) by lra.
  assert (A : 1 - 3 * u <= (1 + d1) / (1 + d2)).
  { apply Qle_shift_div_l; [exact Hb |]. nra. }
  assert (B : (1 + d1) / (1 + d2) <= 1 + 3 * u).
  { apply Qle_shift_div_r; [exact Hb |]. nra. }
  split; lra.
Qed.

End RoundingError.

(** From [Qc] to [Q], where [lra] works. *)
Ltac to_Q :=
  unfold Qcle, Qclt, c1_8, c0_01, two, of_int,
    Qcdiv, Qcminus, Qcplus, Qcmult, Qcopp, Qcinv, Q2Qc in *;
  cbn [this] in *; rewrite ?Qred_correct in *.

(** Settles [a <= b] on two given numbers. *)
Ltac qc_le := unfold Qcle; vm_compute; discriminate.

(** Settles [within u x e] on given numbers, [e] not being zero. *)
Ltac within_computed :=
  match goal with
  | |- within ?u ?x ?e =>
      exists (x / e - 1);
      split; [qc_le | split; [qc_le | apply eqb_eq; vm_compute; reflexivity]]
  end.


Lemma one_plus_neq_0 (u d : Qc) : u <= c1_8 -> - u <= d -> 1 + d <> 0.
Proof.
  intros Hu Hd E.
  assert (E' : (this (1 + d) == 0)%Q) by (rewrite E; reflexivity).
  clear E. to_Q. lra.
Qed.


(** Two quotients of the same offset, by 3000 and by 300, each within
    [u]: the first is a tenth of the second within [3 * u]. *)
Lemma tenth_within (u q fine coarse : Qc) :
  0 <= u -> u <= c1_8 ->
  within u fine (q / of_int 3000) ->
  within u coarse (q / of_int 300) ->
  within (of_int 3 * u) fine (coarse / of_int 10).
Proof.
  intros Hu0 Hu (d1 & L1 & H1 & ->) (d2 & L2 & H2 & ->).
  pose proof (one_plus_neq_0 u d2 Hu L2) as N2.
  exists ((1 + d1) / (1 + d2) - 1).
  assert (B := two_roundings u d1 d2).
  split; [| split].
  - to_Q. apply B; try split; assumption.
  - to_Q. apply B; try split; assumption.
  - assert (E : of_int 3000 = of_int 300 * of_int 10)
      by (apply eqb_eq; vm_compute; reflexivity).
    assert (N300 : of_int 300 <> 0) by (apply eqb_neq; vm_compute; reflexivity).
    assert (N10 : of_int 10 <> 0) by (apply eqb_neq; vm_compute; reflexivity).
    rewrite E. field. auto.
Qed.

(** ** The compensator over an arithmetic *)

(** With the exact operations, [set_ortho_scale_in] is
    [set_ortho_scale], and likewise for the scale delta and the place
    in the frustum. *)
Lemma set_ortho_scale_in_rational (context : Context.t) (cam : ObjectRef) (s : Qc) :
  set_ortho_scale_in rational context cam s = set_ortho_scale context cam s.
Proof. reflexivity. Qed.

Lemma ortho_scale_offset_in_rational (offset_x : Z) (shift : bool) :
  ortho_scale_offset_in rational offset_x shift = ortho_scale_offset offset_x shift.
Proof. reflexivity. Qed.

Lemma frustum_position_in_rational (camera : Matrix) (scale : Qc) (point : Vector) :
  frustum_position_in rational camera scale point
  = frustum_position camera scale point.
Proof. reflexivity. Qed.




(* ================================================================== *)
(** * The compensator: claims C1, C2 and C5 *)
(* ================================================================== *)




(** C2 (the compensator's algorithm).  When the rounded scales differ,
    on a camera with an invertible world transform and a scale that is
    not zero, [set_ortho_scale] writes exactly what the specification
    describes: with [localAnchor = inverse(cameraTransform) *
    anchorWorldPoint], [fracX = localAnchor.x / (currentScale / 2)],
    [fracY] alike, [delta.x = fracX * (newScale / 2) - localAnchor.x] and
    [delta.y] alike, the camera's transform becomes [cameraTransform *
    Translation(-delta.x, -delta.y, 0)] and its scale [newScale];
    nothing else in the context changes. *)
Theorem compensator_algorithm
  (context : Context.t) (ty : string) (cur new : Qc) (m inv : Matrix)
  (anchor : Vector) :
  Context.object context
  = Some (Object.mk (Object.CameraData (Camera.mk ty cur)) m) ->
  round3 cur <> round3 new ->
  inverted m = Ok inv ->
  cur <> 0 ->
  affine (Context.cursor_matrix context) ->
  translation (Context.cursor_matrix context) = anchor ->
  set_ortho_scale context ActiveObject new
  = Ok (Context.with_object context
          (Some (Object.mk (Object.CameraData (Camera.mk ty new))
                           (compensated_transform m inv cur new anchor)))).
Proof.
  intros Hob Hr Hinv Hcur Hcaff Hanchor.
  rewrite (set_ortho_scale_apply _ ty cur new m inv Hob Hr Hinv Hcur).
  cbv zeta.
  rewrite (decompose_loc_matmul inv _ (proj2 (proj2 (proj2 Hcaff)))), Hanchor.
  reflexivity.
Qed.

Lemma compensator_algorithm_witness :
  set_ortho_scale (sample_context (of_int 6)) ActiveObject (of_int 5)
  = Ok (Context.with_object (sample_context (of_int 6))
          (Some (Object.mk (Object.CameraData (Camera.mk "ORTHO" (of_int 5)))
                   (compensated_transform
                      (Translation (of_int 1) (of_int 2) (of_int 3))
                      (Translation (- of_int 1) (- of_int 2) (- of_int 3))
                      (of_int 6) (of_int 5) sample_anchor)))).
Proof.
  apply (compensator_algorithm (sample_context (of_int 6)) "ORTHO"
           (of_int 6) (of_int 5)).
  - reflexivity.
  - apply eqb_neq. vm_compute. reflexivity.
  - apply inverted_of_inverse.
    + apply Translation_inverse.
    + apply eqb_neq. vm_compute. reflexivity.
  - apply eqb_neq. vm_compute. reflexivity.
  - repeat split.
  - reflexivity.
Defined.

(** C5 (no-op stability).  When the camera's scale and the requested
    scale round to the same three decimals, a call of [set_ortho_scale]
    returns the context it was given, world transform and scale
    included, and so does any number of such calls in a row. *)
Theorem noop_stability (context : Context.t) (cur new : Qc) (n : nat) :
  camera_scale context = Some cur ->
  round3 cur = round3 new ->
  set_ortho_scale context ActiveObject new = Ok context
  /\ set_ortho_scale_times n context ActiveObject new = Ok context.
Proof.
  intros Hs Hr.
  pose proof (set_ortho_scale_skip context cur new Hs Hr) as Hskip.
  split; [exact Hskip |].
  induction n as [| n IH]; cbn [set_ortho_scale_times].
  - reflexivity.
  - rewrite Hskip. exact IH.
Qed.

Lemma noop_stability_witness :
  set_ortho_scale (sample_context (Q2Qc (60004 # 10000))) ActiveObject (of_int 6)
  = Ok (sample_context (Q2Qc (60004 # 10000)))
  /\ set_ortho_scale_times 3 (sample_context (Q2Qc (60004 # 10000)))
       ActiveObject (of_int 6)
     = Ok (sample_context (Q2Qc (60004 # 10000))).
Proof.
  apply (noop_stability (sample_context (Q2Qc (60004 # 10000)))
           (Q2Qc (60004 # 10000)) (of_int 6) 3).
  - reflexivity.
  - apply eqb_eq. vm_compute. reflexivity.
Defined.

(* ================================================================== *)
(** * Facts about the operator *)
(* ================================================================== *)

Lemma camera_scale_header (context : Context.t) (text : option string) :
  camera_scale (Context.header_text_set context text) = camera_scale context.
Proof. reflexivity. Qed.

Lemma sound_camera_header (context : Context.t) (text : option string) :
  sound_camera context -> sound_camera (Context.header_text_set context text).
Proof. intros H. exact H. Qed.


(** [invoke] on a camera: the snapshot it takes and the requests it
    makes to the host. *)
Lemma invoke_camera (context : Context.t) (event : Event.t) (s : Qc) (m : Matrix) :
  camera_scale context = Some s ->
  camera_transform context = Some m ->
  invoke __init__ context event
  = Ok (RUNNING_MODAL,
        mkOperator (Some ActiveObject) (Event.mouse_region_x event) s (Some m),
        Context.modal_handler_add
          (Context.cursor_modal_set
             (Context.status_text_set context
                (Some "LMB, ENTER: Confirm | RMB, ESC: Cancel"))
             "MOVE_X")).
Proof.
  intros Hs Hm. destruct (camera_context _ _ Hs) as (ty & m' & Hob).
  unfold camera_transform in Hm. rewrite Hob in Hm. cbn in Hm.
  injection Hm as ->.
  unfold invoke, read_ortho_scale, read_matrix_world. rewrite Hob. reflexivity.
Qed.

(** A session that [invoke] has just started. *)
Lemma invoke_in_session (context context1 : Context.t) (event : Event.t)
  (st : status) (self : Operator) (S0 : Qc) (T0 : Matrix) :
  camera_scale context = Some S0 ->
  camera_transform context = Some T0 ->
  invoke __init__ context event = Ok (st, self, context1) ->
  st = RUNNING_MODAL
  /\ in_session S0 T0 self context1
  /\ camera_scale context1 = Some S0
  /\ camera_transform context1 = Some T0
  /\ Context.cursor_matrix context1 = Context.cursor_matrix context
  /\ last_mouse_x self = Event.mouse_region_x event.
Proof.
  intros Hs Hm. rewrite (invoke_camera context event S0 T0 Hs Hm).
  intros [= <- <- <-]. unfold in_session. cbn.
  repeat split; try assumption. exists S0. exact Hs.
Qed.

(** The step of [modal] on a pointer move. *)
Lemma modal_pointer_move (self : Operator) (context : Context.t) (event : Event.t)
  (s : Qc) :
  cam self = Some ActiveObject ->
  camera_scale context = Some s ->
  pointer_move event ->
  let target :=
    target_scale s (Event.mouse_region_x event) (last_mouse_x self)
      (Event.shift event) in
  modal self context event
  = (context' <- set_ortho_scale context ActiveObject target ;;
     Ok (RUNNING_MODAL,
         mkOperator (cam self) (Event.mouse_region_x event)
           (init_scale self) (init_matrix self),
         Context.header_text_set context'
           (Some ("Orthographic Scale: " ++ format_3f target)%string))).
Proof.
  intros Hcam Hs Hmove target.
  destruct (camera_context _ _ Hs) as (ty & m & Hob).
  unfold modal. unfold pointer_move in Hmove. rewrite Hmove. cbn [String.eqb].
  rewrite String.eqb_refl.
  rewrite (truediv_ok _ _ (of_int_divisor_neq_0 (Event.shift event))).
  rewrite Hcam. unfold read_ortho_scale. rewrite Hob. cbn. reflexivity.
Qed.

Lemma target_scale_floor (s : Qc) (x last : Z) (shift : bool) :
  c0_01 <= target_scale s x last shift.
Proof. unfold target_scale. apply max_ge_r. Qed.

Lemma target_scale_pos (s : Qc) (x last : Z) (shift : bool) :
  0 < target_scale s x last shift.
Proof.
  apply (Qclt_le_trans _ c0_01); [apply c0_01_pos | apply target_scale_floor].
Qed.

(** A pointer move that returns keeps the session, and leaves the scale
    as it was or at a value that is at least the floor. *)
Lemma modal_move_inv (S0 : Qc) (T0 : Matrix) (self self' : Operator)
  (context context' : Context.t) (event : Event.t) (st : status) :
  in_session S0 T0 self context ->
  pointer_move event ->
  modal self context event = Ok (st, self', context') ->
  st = RUNNING_MODAL
  /\ in_session S0 T0 self' context'
  /\ last_mouse_x self' = Event.mouse_region_x event
  /\ (camera_scale context' = camera_scale context
      \/ exists s', camera_scale context' = Some s' /\ c0_01 <= s').
Proof.
  intros (Hcam & Hs0 & Hm0 & s & Hs) Hmove.
  rewrite (modal_pointer_move self context event s Hcam Hs Hmove). cbv zeta.
  destruct (set_ortho_scale context ActiveObject _) as [c1 | e] eqn:Hset;
    cbn; [| discriminate].
  intros [= <- <- <-]. split; [reflexivity |].
  destruct (set_ortho_scale_result _ _ _ _ Hs Hset) as [-> | [Hnew _]].
  - repeat split; cbn; try assumption; [exists s; exact Hs | now left].
  - repeat split; cbn; try assumption.
    + eexists. rewrite camera_scale_header. exact Hnew.
    + right. eexists. rewrite camera_scale_header.
      split; [exact Hnew | apply target_scale_floor].
Qed.

(** On a sound camera a pointer move always returns. *)
Lemma modal_move_total (S0 : Qc) (T0 : Matrix) (self : Operator)
  (context : Context.t) (event : Event.t) :
  in_session S0 T0 self context ->
  sound_camera context ->
  pointer_move event ->
  exists self' context',
    modal self context event = Ok (RUNNING_MODAL, self', context')
    /\ sound_camera context'.
Proof.
  intros (Hcam & Hs0 & Hm0 & s & Hs) Hsound Hmove.
  rewrite (modal_pointer_move self context event s Hcam Hs Hmove). cbv zeta.
  destruct (set_ortho_scale_total context _ Hsound
              (target_scale_pos s (Event.mouse_region_x event)
                 (last_mouse_x self) (Event.shift event)))
    as (c1 & Hset & Hsound1).
  rewrite Hset. cbn. do 2 eexists. split; [reflexivity |].
  apply sound_camera_header, Hsound1.
Qed.

(** The loop over several events, cut where the first batch ends. *)
Lemma run_app (events events' : list Event.t) (self self' : Operator)
  (context context' : Context.t) :
  run self context events = Ok (RUNNING_MODAL, self', context') ->
  run self context (events ++ events') = run self' context' events'.
Proof.
  revert self context.
  induction events as [| e events IH]; intros self context; cbn [run app].
  - intros [= <- <-]. reflexivity.
  - destruct (modal self context e) as [[[st s1] c1] | x]; cbn; [| discriminate].
    destruct st; try discriminate. apply IH.
Qed.

(** Pointer moves that all return keep the session, and leave the scale
    as it was at the start or at least at the floor. *)
Lemma run_moves_inv (S0 : Qc) (T0 : Matrix) (events : list Event.t) :
  Forall pointer_move events ->
  forall (self self' : Operator) (context context' : Context.t) (st : status),
    in_session S0 T0 self context ->
    run self context events = Ok (st, self', context') ->
    st = RUNNING_MODAL
    /\ in_session S0 T0 self' context'
    /\ (camera_scale context' = camera_scale context
        \/ exists s', camera_scale context' = Some s' /\ c0_01 <= s').
Proof.
  induction 1 as [| e events He _ IH]; intros self self' context context' st Hin;
    cbn [run].
  - intros [= <- <- <-]. split; [reflexivity |]. split; [exact Hin | now left].
  - destruct (modal self context e) as [[[st1 s1] c1] | x] eqn:Hmodal;
      cbn; [| discriminate].
    destruct (modal_move_inv S0 T0 _ _ _ _ _ _ Hin He Hmodal)
      as (-> & Hin1 & _ & Hfloor1).
    intros Hrun. destruct (IH _ _ _ _ _ Hin1 Hrun) as (-> & Hin' & Hfloor').
    split; [reflexivity |]. split; [exact Hin' |].
    destruct Hfloor' as [Hsame | Habove]; [| now right].
    rewrite Hsame. exact Hfloor1.
Qed.

(** On a sound camera pointer moves always return. *)
Lemma run_moves_total (S0 : Qc) (T0 : Matrix) (events : list Event.t) :
  Forall pointer_move events ->
  forall (self : Operator) (context : Context.t),
    in_session S0 T0 self context ->
    sound_camera context ->
    exists self' context',
      run self context events = Ok (RUNNING_MODAL, self', context')
      /\ sound_camera context'.
Proof.
  induction 1 as [| e events He _ IH]; intros self context Hin Hsound; cbn [run].
  - eauto.
  - destruct (modal_move_total S0 T0 self context e Hin Hsound He)
      as (s1 & c1 & Hmodal & Hsound1).
    destruct (modal_move_inv S0 T0 _ _ _ _ _ _ Hin He Hmodal) as (_ & Hin1 & _).
    rewrite Hmodal. cbn. apply (IH _ _ Hin1 Hsound1).
Qed.

(** The three kinds of press. *)
Lemma modal_cancel (S0 : Qc) (T0 : Matrix) (self : Operator) (context : Context.t)
  (event : Event.t) :
  in_session S0 T0 self context ->
  cancel_input event ->
  exists context',
    modal self context event = Ok (CANCELLED, self, context')
    /\ camera_scale context' = Some S0
    /\ camera_transform context' = Some T0.
Proof.
  intros (Hcam & Hs0 & Hm0 & s & Hs) (Hpress & Htype).
  destruct (camera_context _ _ Hs) as (ty & m & Hob).
  unfold modal, restore, write_ortho_scale, write_matrix_world.
  rewrite Hpress, Hcam, Hm0, Hob, Hs0.
  destruct Htype as [-> | ->]; cbn; eexists; (split; [reflexivity |]);
    split; reflexivity.
Qed.

Lemma modal_confirm (self : Operator) (context : Context.t) (event : Event.t) :
  confirm_input event ->
  modal self context event = Ok (FINISHED, self, finish context).
Proof.
  intros (Hpress & Htype). unfold modal. rewrite Hpress.
  destruct Htype as [-> | ->]; reflexivity.
Qed.

Lemma modal_unrecognized (self : Operator) (context : Context.t) (event : Event.t) :
  unrecognized_press event ->
  modal self context event = Ok (RUNNING_MODAL, self, context).
Proof.
  intros (Hpress & Hmove & Hesc & Hrmb & Hspace & Hlmb).
  unfold modal. rewrite Hpress.
  apply String.eqb_neq in Hmove, Hesc, Hrmb, Hspace, Hlmb.
  rewrite Hmove, Hesc, Hrmb, Hspace, Hlmb. reflexivity.
Qed.

Lemma run_single (self self' : Operator) (context context' : Context.t)
  (event : Event.t) (st : status) :
  modal self context event = Ok (st, self', context') ->
  run self context [event] = Ok (st, self', context').
Proof.
  intros H. cbn [run]. rewrite H. cbn. destruct st; reflexivity.
Qed.

(** The scale delta of lines 61 to 64 is the one the target scale of a
    pointer move is computed from. *)
Lemma target_scale_offset (s d : Qc) (pointerX lastPointerX : Z) (shift : bool) :
  ortho_scale_offset (pointerX - lastPointerX) shift = Ok d ->
  target_scale s pointerX lastPointerX shift = max (s - d) c0_01.
Proof.
  unfold ortho_scale_offset.
  rewrite (truediv_ok _ _ (of_int_divisor_neq_0 shift)).
  intros [= <-]. reflexivity.
Qed.

(** Two sessions on the sample scene.  Dragging 300 pixels to the right
    takes the scale from 6 to 5 and moves the camera from [(1, 2)] to
    [(3/2, 8/3)], which keeps the cursor where it was in the frame;
    SPACE keeps that, ESC puts scale 6 and the first transform back. *)
Example session_confirmed :
  exists self context s m,
    session (sample_context (of_int 6)) (start_press 100)
      [mouse_move 400 false; key_press "SPACE"]
    = Ok (FINISHED, self, context)
    /\ camera_scale context = Some s /\ s = of_int 5
    /\ camera_transform context = Some m
    /\ m03 m = Q2Qc (3 # 2) /\ m13 m = Q2Qc (8 # 3)
    /\ Context.header_text context = None.
Proof.
  do 4 eexists. split; [vm_compute; reflexivity |].
  split; [reflexivity |]. split; [apply eqb_eq; vm_compute; reflexivity |].
  split; [reflexivity |].
  repeat split; apply eqb_eq; vm_compute; reflexivity.
Qed.

Example session_cancelled :
  exists self context,
    session (sample_context (of_int 6)) (start_press 100)
      [mouse_move 400 false; mouse_move 250 true; key_press "ESC"]
    = Ok (CANCELLED, self, context)
    /\ Context.object context = Some (sample_camera (of_int 6)).
Proof.
  do 2 eexists. split; [vm_compute; reflexivity | reflexivity].
Qed.

(** The header shows the target of a move to three decimals. *)
Example header_after_move :
  exists self context,
    session (sample_context (of_int 6)) (start_press 100) [mouse_move 250 true]
    = Ok (RUNNING_MODAL, self, context)
    /\ Context.header_text context = Some "Orthographic Scale: 5.950".
Proof.
  do 2 eexists. split; [vm_compute; reflexivity | reflexivity].
Qed.

(* ================================================================== *)
(** * The session: claims C3, C4, C6, C7, C8, C9 and C10 *)
(* ================================================================== *)

(** C6 (the pointer-move step).  In a running session, on a pointer-move
    event, [modal] computes [offsetX = pointerX - lastPointerX], the
    divisor 3000 with the precision modifier and 300 without, and
    [targetScale = max(scale - offsetX / divisor, 0.01)] from the scale
    the camera has now; it calls the compensator on the camera as it is
    now with [targetScale] as the new scale, shows the target in the
    header, and stores [pointerX] as the last pointer position, the
    snapshot being kept.  Whenever the compensator returns the session
    stays in [RUNNING_MODAL], and on a camera with a positive scale and
    an invertible transform it always returns. *)
Theorem pointer_move_step
  (S0 : Qc) (T0 : Matrix) (self : Operator) (context : Context.t)
  (event : Event.t) (s : Qc) :
  in_session S0 T0 self context ->
  camera_scale context = Some s ->
  pointer_move event ->
  let targetScale :=
    target_scale s (Event.mouse_region_x event) (last_mouse_x self)
      (Event.shift event) in
  modal self context event
  = (context' <- set_ortho_scale context ActiveObject targetScale ;;
     Ok (RUNNING_MODAL,
         mkOperator (Some ActiveObject) (Event.mouse_region_x event) S0 (Some T0),
         Context.header_text_set context'
           (Some ("Orthographic Scale: " ++ format_3f targetScale)%string)))
  /\ (sound_camera context ->
      exists context',
        set_ortho_scale context ActiveObject targetScale = Ok context'
        /\ sound_camera context').
Proof.
  intros (Hcam & Hs0 & Hm0 & _) Hs Hmove targetScale. split.
  - rewrite (modal_pointer_move self context event s Hcam Hs Hmove).
    rewrite Hcam, Hs0, Hm0. reflexivity.
  - intros Hsound. apply set_ortho_scale_total; [exact Hsound |].
    apply target_scale_pos.
Qed.

Lemma pointer_move_step_witness :
  modal (sample_operator 100 (of_int 6))
        (sample_context (of_int 5)) (mouse_move 400 false)
  = (context' <- set_ortho_scale (sample_context (of_int 5)) ActiveObject
                   (target_scale (of_int 5) 400 100 false) ;;
     Ok (RUNNING_MODAL,
         sample_operator 400 (of_int 6),
         Context.header_text_set context'
           (Some ("Orthographic Scale: "
                    ++ format_3f (target_scale (of_int 5) 400 100 false))%string)))
  /\ (sound_camera (sample_context (of_int 5)) ->
      exists context',
        set_ortho_scale (sample_context (of_int 5)) ActiveObject
          (target_scale (of_int 5) 400 100 false) = Ok context'
        /\ sound_camera context').
Proof.
  apply (pointer_move_step (of_int 6) (Translation (of_int 1) (of_int 2) (of_int 3))
           (sample_operator 100 (of_int 6))
           (sample_context (of_int 5)) (mouse_move 400 false) (of_int 5)).
  - repeat split. exists (of_int 5). reflexivity.
  - reflexivity.
  - reflexivity.
Defined.

(** C8 (the divisor switch), as the code has it.  The divisor with the
    precision modifier held, 3000, is ten times the one without, 300.
    At [offsetX = 300] the doubles of Python give the deltas [0.1] and
    [1.0], and the first is exactly one tenth of the second: [1.0 / 10]
    is [0.1], and [0.1 * 10] is [1.0].  For every offset, in every
    arithmetic whose two quotients are within a relative error [u <=
    1/8] of the exact ones, the delta with the modifier is one tenth of
    the delta without it within a relative error of [3 * u].  [u] is
    [2**-53] for the doubles of Python; with exact quotients, [u = 0],
    it is one tenth exactly. *)
Theorem divisor_switch_up_to_rounding
  (A : Arith) (u : Qc) (offset_x : Z) (fine coarse : Qc) :
  0 <= u -> u <= c1_8 ->
  ortho_scale_offset_in A offset_x true = Ok fine ->
  within u fine (of_int offset_x / of_int 3000) ->
  ortho_scale_offset_in A offset_x false = Ok coarse ->
  within u coarse (of_int offset_x / of_int 300) ->
  within (of_int 3 * u) fine (coarse / of_int 10)
  /\ (exists tenth one,
        ortho_scale_offset_in binary64 300 true = Ok tenth
        /\ ortho_scale_offset_in binary64 300 false = Ok one
        /\ one = 1
        /\ fdiv binary64 one (of_int 10) = Ok tenth
        /\ fmul binary64 tenth (of_int 10) = one)
  /\ divisor true = (10 * divisor false)%Z.
Proof.
  intros Hu0 Hu _ Wf _ Wc.
  split; [exact (tenth_within u (of_int offset_x) fine coarse Hu0 Hu Wf Wc) |].
  split; [| reflexivity].
  do 2 eexists. split; [vm_compute; reflexivity |].
  split; [vm_compute; reflexivity |].
  split; [apply eqb_eq; vm_compute; reflexivity |].
  split; [vm_compute; reflexivity |].
  apply eqb_eq. vm_compute. reflexivity.
Qed.

(** At an offset of 32 pixels, with the doubles of Python. *)
Lemma divisor_switch_up_to_rounding_witness :
  exists fine coarse,
    ortho_scale_offset_in binary64 32 true = Ok fine
    /\ ortho_scale_offset_in binary64 32 false = Ok coarse
    /\ within (of_int 3 * Binary64.unit_roundoff) fine (coarse / of_int 10)
    /\ (exists tenth one,
          ortho_scale_offset_in binary64 300 true = Ok tenth
          /\ ortho_scale_offset_in binary64 300 false = Ok one
          /\ one = 1
          /\ fdiv binary64 one (of_int 10) = Ok tenth
          /\ fmul binary64 tenth (of_int 10) = one)
    /\ divisor true = (10 * divisor false)%Z.
Proof.
  do 2 eexists.
  split; [vm_compute; reflexivity |].
  split; [vm_compute; reflexivity |].
  apply (divisor_switch_up_to_rounding binary64 Binary64.unit_roundoff 32).
  - qc_le.
  - qc_le.
  - vm_compute. reflexivity.
  - within_computed.
  - vm_compute. reflexivity.
  - within_computed.
Defined.

(** C8 as stated, for every offset, fails on the doubles of Python.
    At [offsetX = 32], [32 / 3000] is [0.010666666666666666] and
    [32 / 300] is [0.10666666666666667], of which one tenth is
    [0.010666666666666668]: the delta with the modifier is not the
    tenth that Python computes of the other ([fine <> tenth]), nor its
    exact tenth, nor does ten times it give the other back. *)
Lemma divisor_switch_counterexample :
  exists fine coarse tenth,
    ortho_scale_offset_in binary64 32 true = Ok fine
    /\ ortho_scale_offset_in binary64 32 false = Ok coarse
    /\ fdiv binary64 coarse (of_int 10) = Ok tenth
    /\ this fine = (6148914691236517 # 576460752303423488)%Q
    /\ this coarse = (7686143364045647 # 72057594037927936)%Q
    /\ this tenth = (3074457345618259 # 288230376151711744)%Q
    /\ fine <> tenth
    /\ fine <> coarse / of_int 10
    /\ fmul binary64 fine (of_int 10) <> coarse.
Proof.
  do 3 eexists.
  split; [vm_compute; reflexivity |].
  split; [vm_compute; reflexivity |].
  split; [vm_compute; reflexivity |].
  split; [vm_compute; reflexivity |].
  split; [vm_compute; reflexivity |].
  split; [vm_compute; reflexivity |].
  split; [apply eqb_neq; vm_compute; reflexivity |].
  split; apply eqb_neq; vm_compute; reflexivity.
Qed.

(** C10 (unrecognized inputs are ignored).  In a running session, a key
    or button press whose type is not ESC, RIGHTMOUSE, SPACE or
    LEFTMOUSE (the ENTER key, of type RET, is such a press) neither
    confirms nor cancels: [modal] answers [RUNNING_MODAL] and returns
    the operator and the context, the camera's scale and world
    transform included, as it received them, and the loop goes on as if
    the event had not come. *)
Theorem unrecognized_press_ignored
  (self : Operator) (context : Context.t) (event : Event.t) :
  unrecognized_press event ->
  modal self context event = Ok (RUNNING_MODAL, self, context)
  /\ forall events, run self context (event :: events) = run self context events.
Proof.
  intros H. pose proof (modal_unrecognized self context event H) as Hmodal.
  split; [exact Hmodal |].
  intros events. cbn [run]. rewrite Hmodal. reflexivity.
Qed.

Lemma unrecognized_press_ignored_witness :
  modal (sample_operator 100 (of_int 6))
        (sample_context (of_int 5)) (key_press "RET")
  = Ok (RUNNING_MODAL,
        sample_operator 100 (of_int 6),
        sample_context (of_int 5))
  /\ forall events,
       run (sample_operator 100 (of_int 6))
           (sample_context (of_int 5)) (key_press "RET" :: events)
       = run (sample_operator 100 (of_int 6))
             (sample_context (of_int 5)) events.
Proof.
  apply (unrecognized_press_ignored
           (sample_operator 100 (of_int 6))
           (sample_context (of_int 5)) (key_press "RET")).
  repeat split; discriminate.
Defined.

(** C4 (cancel restores exactly).  A session started on a camera with
    scale [S0] and world transform [T0], after any pointer moves, answers
    a cancel input (ESC or the right mouse button) with [CANCELLED] and
    leaves the camera with scale [S0] and world transform [T0]; and when
    [S0] is positive and [T0] invertible, the moves and the cancel do
    all return, so the whole session ends cancelled and restored. *)
Theorem cancel_restores_exactly
  (context0 context1 : Context.t) (event0 : Event.t) (self0 : Operator)
  (S0 : Qc) (T0 : Matrix) (moves : list Event.t) (cancel : Event.t) :
  camera_scale context0 = Some S0 ->
  camera_transform context0 = Some T0 ->
  invoke __init__ context0 event0 = Ok (RUNNING_MODAL, self0, context1) ->
  Forall pointer_move moves ->
  cancel_input cancel ->
  (forall self context,
      run self0 context1 moves = Ok (RUNNING_MODAL, self, context) ->
      exists context',
        modal self context cancel = Ok (CANCELLED, self, context')
        /\ camera_scale context' = Some S0
        /\ camera_transform context' = Some T0)
  /\ (0 < S0 -> determinant T0 <> 0 ->
      exists self context',
        run self0 context1 (moves ++ [cancel]) = Ok (CANCELLED, self, context')
        /\ camera_scale context' = Some S0
        /\ camera_transform context' = Some T0).
Proof.
  intros Hs Hm Hinvoke Hmoves Hcancel.
  destruct (invoke_in_session _ _ _ _ _ S0 T0 Hs Hm Hinvoke)
    as (_ & Hin & Hs1 & Hm1 & _).
  assert (Hstep : forall self context,
             run self0 context1 moves = Ok (RUNNING_MODAL, self, context) ->
             exists context',
               modal self context cancel = Ok (CANCELLED, self, context')
               /\ camera_scale context' = Some S0
               /\ camera_transform context' = Some T0).
  { intros self context Hrun.
    destruct (run_moves_inv S0 T0 moves Hmoves _ _ _ _ _ Hin Hrun) as (_ & Hin' & _).
    apply (modal_cancel S0 T0 self context cancel Hin' Hcancel). }
  split; [exact Hstep |].
  intros Hpos Hdet.
  assert (Hsound : sound_camera context1) by (exists S0, T0; auto).
  destruct (run_moves_total S0 T0 moves Hmoves self0 context1 Hin Hsound)
    as (self & context & Hrun & _).
  destruct (Hstep self context Hrun) as (context' & Hmodal & Hs' & Hm').
  exists self, context'. rewrite (run_app moves [cancel] _ _ _ _ Hrun).
  rewrite (run_single _ _ _ _ _ _ Hmodal). auto.
Qed.

Lemma cancel_restores_exactly_witness :
  (forall self context,
      run (sample_operator 100 (of_int 6)) (sample_started (of_int 6))
          [mouse_move 400 false; mouse_move 250 true]
      = Ok (RUNNING_MODAL, self, context) ->
      exists context',
        modal self context (key_press "ESC") = Ok (CANCELLED, self, context')
        /\ camera_scale context' = Some (of_int 6)
        /\ camera_transform context'
           = Some (Translation (of_int 1) (of_int 2) (of_int 3)))
  /\ (0 < of_int 6 ->
      determinant (Translation (of_int 1) (of_int 2) (of_int 3)) <> 0 ->
      exists self context',
        run (sample_operator 100 (of_int 6)) (sample_started (of_int 6))
            ([mouse_move 400 false; mouse_move 250 true] ++ [key_press "ESC"])
        = Ok (CANCELLED, self, context')
        /\ camera_scale context' = Some (of_int 6)
        /\ camera_transform context'
           = Some (Translation (of_int 1) (of_int 2) (of_int 3))).
Proof.
  apply (cancel_restores_exactly (sample_context (of_int 6)) _ (start_press 100)).
  - reflexivity.
  - reflexivity.
  - reflexivity.
  - repeat constructor.
  - split; [reflexivity | left; reflexivity].
Defined.



(** C3 (the scale floor), as the code has it.  In a session started on
    a camera with scale [S0], after any pointer moves that return, the
    camera's scale is still [S0] or is at least 0.01: every scale a
    pointer move writes has been raised to 0.01 first, so the scale is
    never below 0.01 in a session started at 0.01 or above.  The write of
    [restore] is not floored: a cancel input puts [S0] back as it is.
    When [S0] is positive and the starting transform invertible the
    moves do all return. *)
Theorem scale_floor
  (context0 context1 : Context.t) (event0 : Event.t) (self0 : Operator)
  (S0 : Qc) (T0 : Matrix) (moves : list Event.t) :
  camera_scale context0 = Some S0 ->
  camera_transform context0 = Some T0 ->
  invoke __init__ context0 event0 = Ok (RUNNING_MODAL, self0, context1) ->
  Forall pointer_move moves ->
  (forall st self context,
      run self0 context1 moves = Ok (st, self, context) ->
      exists s,
        camera_scale context = Some s
        /\ (s = S0 \/ c0_01 <= s)
        /\ (c0_01 <= S0 -> c0_01 <= s)
        /\ forall cancel,
             cancel_input cancel ->
             exists context',
               modal self context cancel = Ok (CANCELLED, self, context')
               /\ camera_scale context' = Some S0)
  /\ (0 < S0 -> determinant T0 <> 0 ->
      exists self context,
        run self0 context1 moves = Ok (RUNNING_MODAL, self, context)).
Proof.
  intros Hs Hm Hinvoke Hmoves.
  destruct (invoke_in_session _ _ _ _ _ S0 T0 Hs Hm Hinvoke)
    as (_ & Hin & Hs1 & Hm1 & _).
  split.
  - intros st self context Hrun.
    destruct (run_moves_inv S0 T0 moves Hmoves _ _ _ _ _ Hin Hrun)
      as (-> & Hin' & Hfloor).
    assert (Hcases : exists s, camera_scale context = Some s
                               /\ (s = S0 \/ c0_01 <= s)).
    { destruct Hfloor as [Hsame | (s' & Hs' & Hle)].
      - exists S0. rewrite Hsame. auto.
      - exists s'. auto. }
    destruct Hcases as (s & Hsc & Hor). exists s.
    split; [exact Hsc |]. split; [exact Hor |]. split.
    + intros HS0. destruct Hor as [-> | Hle]; assumption.
    + intros cancel Hcancel.
      destruct (modal_cancel S0 T0 self context cancel Hin' Hcancel)
        as (context' & Hmodal & Hs' & _).
      eauto.
  - intros Hpos Hdet.
    assert (Hsound : sound_camera context1) by (exists S0, T0; auto).
    destruct (run_moves_total S0 T0 moves Hmoves self0 context1 Hin Hsound)
      as (self & context & Hrun & _).
    eauto.
Qed.

Lemma scale_floor_witness :
  (forall st self context,
      run (sample_operator 100 (of_int 6)) (sample_started (of_int 6))
          [mouse_move 400 false; mouse_move 100000 false]
      = Ok (st, self, context) ->
      exists s,
        camera_scale context = Some s
        /\ (s = of_int 6 \/ c0_01 <= s)
        /\ (c0_01 <= of_int 6 -> c0_01 <= s)
        /\ forall cancel,
             cancel_input cancel ->
             exists context',
               modal self context cancel = Ok (CANCELLED, self, context')
               /\ camera_scale context' = Some (of_int 6))
  /\ (0 < of_int 6 ->
      determinant (Translation (of_int 1) (of_int 2) (of_int 3)) <> 0 ->
      exists self context,
        run (sample_operator 100 (of_int 6)) (sample_started (of_int 6))
            [mouse_move 400 false; mouse_move 100000 false]
        = Ok (RUNNING_MODAL, self, context)).
Proof.
  apply (scale_floor (sample_context (of_int 6)) _ (start_press 100)).
  - reflexivity.
  - reflexivity.
  - reflexivity.
  - repeat constructor.
Defined.

(** C3 as stated fails on two sessions.  Started at scale 0.0098, a
    pointer move that does not move the pointer aims at 0.01, which
    rounds as 0.0098 does, so nothing is written and the scale after the
    event is 0.0098.  Started at scale 0.005, the same move writes 0.01,
    and a cancel then writes 0.005 back. *)
Lemma scale_floor_counterexample :
  (exists self context,
      session (sample_context (Q2Qc (98 # 10000))) (start_press 100)
        [mouse_move 100 false]
      = Ok (RUNNING_MODAL, self, context)
      /\ camera_scale context = Some (Q2Qc (98 # 10000))
      /\ Q2Qc (98 # 10000) < c0_01)
  /\ (exists self context self' context',
        session (sample_context (Q2Qc (5 # 1000))) (start_press 100)
          [mouse_move 100 false]
        = Ok (RUNNING_MODAL, self, context)
        /\ camera_scale context = Some c0_01
        /\ session (sample_context (Q2Qc (5 # 1000))) (start_press 100)
             [mouse_move 100 false; key_press "ESC"]
           = Ok (CANCELLED, self', context')
        /\ camera_scale context' = Some (Q2Qc (5 # 1000))
        /\ Q2Qc (5 # 1000) < c0_01).
Proof.
  split.
  - do 2 eexists. split; [vm_compute; reflexivity |].
    split; reflexivity.
  - do 4 eexists. split; [vm_compute; reflexivity |].
    split; [reflexivity |].
    split; [vm_compute; reflexivity |].
    split; reflexivity.
Qed.

(** [poll] holds exactly on an orthographic camera seen through the
    camera. *)
Lemma poll_true (context : Context.t) :
  poll context = true <-> ortho_camera_in_camera_view context.
Proof.
  unfold poll, ortho_camera_in_camera_view. split.
  - destruct (Context.object context) as [[d m] |]; [| discriminate].
    unfold Object.type. cbn [Object.data].
    destruct d as [c | | |]; cbn; try discriminate.
    intros H. apply andb_prop in H. destruct H as [Hty Hview].
    apply String.eqb_eq in Hty, Hview.
    eexists _, c. repeat split; assumption.
  - intros (ob & c & -> & Hd & Hty & Hview).
    unfold Object.type. rewrite Hd, Hty, Hview. reflexivity.
Qed.

(** C9 (activation refusal).  Activation either finds an orthographic
    camera as the active object with the viewport in camera view, and
    then enters the modal state with the snapshot of the camera's scale
    and transform; or it does not find them, and then [poll] is false
    and the operator is refused: no exception, no operator instance,
    and the context is the one that was given.  The two cases exclude
    each other, so activation succeeds exactly under the precondition. *)
Theorem activation_refusal (context : Context.t) (event : Event.t) :
  (ortho_camera_in_camera_view context
   /\ exists s m,
        camera_scale context = Some s
        /\ camera_transform context = Some m
        /\ activate context event
           = Ok (Started RUNNING_MODAL
                   (mkOperator (Some ActiveObject) (Event.mouse_region_x event)
                      s (Some m)),
                 Context.modal_handler_add
                   (Context.cursor_modal_set
                      (Context.status_text_set context
                         (Some "LMB, ENTER: Confirm | RMB, ESC: Cancel"))
                      "MOVE_X")))
  \/ (~ ortho_camera_in_camera_view context
      /\ poll context = false
      /\ activate context event = Ok (Refused, context)).
Proof.
  destruct (poll context) eqn:Hpoll.
  - left. pose proof (proj1 (poll_true context) Hpoll) as Hpre.
    split; [exact Hpre |].
    destruct Hpre as ([d m] & c & Hob & Hd & _). cbn in Hd. subst d.
    exists (Camera.ortho_scale c), m.
    assert (Hs : camera_scale context = Some (Camera.ortho_scale c))
      by (unfold camera_scale; rewrite Hob; reflexivity).
    assert (Hm : camera_transform context = Some m)
      by (unfold camera_transform; rewrite Hob; reflexivity).
    split; [exact Hs |]. split; [exact Hm |].
    unfold activate. rewrite Hpoll.
    rewrite (invoke_camera context event _ _ Hs Hm). reflexivity.
  - right. split.
    + intros Hpre. apply poll_true in Hpre. congruence.
    + split; [reflexivity |]. unfold activate. rewrite Hpoll. reflexivity.
Qed.

(* ================================================================== *)
(** * Facts about rounding *)
(* ================================================================== *)

Section Rounding.
Local Open Scope Q_scope.

Lemma round_half_even_near (q : Q) (n : Z) :
  inject_Z n - (1 # 2) < q -> q < inject_Z n + (1 # 2) ->
  round_half_even q = n.
Proof.
  intros Hlo Hhi. unfold round_half_even.
  pose proof (Qfloor_le q) as Hf. pose proof (Qlt_floor q) as Hf1.
  rewrite inject_Z_plus in Hf1. change (inject_Z 1) with 1 in Hf1.
  set (f := Qfloor q) in *.
  assert (Hnf : (n <= f + 1)%Z).
  { apply Z.lt_succ_r. rewrite Zlt_Qlt. unfold Z.succ.
    rewrite !inject_Z_plus. change (inject_Z 1) with 1. lra. }
  assert (Hfn : (f <= n)%Z).
  { apply Z.lt_succ_r. rewrite Zlt_Qlt. unfold Z.succ.
    rewrite !inject_Z_plus. change (inject_Z 1) with 1. lra. }
  destruct (Qcompare (q - inject_Z f) (1 # 2)) eqn:C.
  - apply Qeq_alt in C.
    assert (n = f \/ n = (f + 1)%Z) as [-> | ->] by lia.
    + exfalso. lra.
    + exfalso. rewrite inject_Z_plus in Hlo. change (inject_Z 1) with 1 in Hlo. lra.
  - apply Qlt_alt in C.
    assert (n = f \/ n = (f + 1)%Z) as [-> | ->] by lia; [reflexivity |].
    exfalso. rewrite inject_Z_plus in Hlo. change (inject_Z 1) with 1 in Hlo. lra.
  - apply Qgt_alt in C.
    assert (n = f \/ n = (f + 1)%Z) as [-> | ->] by lia; [| reflexivity].
    exfalso. lra.
Qed.

Lemma round_half_even_bounds (q : Q) :
  inject_Z (round_half_even q) - (1 # 2) <= q
  /\ q <= inject_Z (round_half_even q) + (1 # 2).
Proof.
  unfold round_half_even.
  pose proof (Qfloor_le q) as Hf. pose proof (Qlt_floor q) as Hf1.
  rewrite inject_Z_plus in Hf1. change (inject_Z 1) with 1 in Hf1.
  set (f := Qfloor q) in *.
  destruct (Qcompare (q - inject_Z f) (1 # 2)) eqn:C.
  - apply Qeq_alt in C. destruct (Z.even f);
      rewrite ?inject_Z_plus; change (inject_Z 1) with 1; lra.
  - apply Qlt_alt in C. lra.
  - apply Qgt_alt in C. rewrite inject_Z_plus. change (inject_Z 1) with 1. lra.
Qed.

Ltac qc_to_q :=
  unfold target_scale, c0_01, two, of_int, Qcdiv, Qcminus, Qcplus, Qcmult, Qcopp, Qcinv, Q2Qc in *;
  cbn [this] in *; rewrite ?Qred_correct in *.

Lemma round3_eq (a b : Qc) :
  round_half_even (a * inject_Z 1000) = round_half_even (b * inject_Z 1000) ->
  round3 a = round3 b.
Proof. unfold round3. intros ->. reflexivity. Qed.

Lemma round3_eq_inv (a b : Qc) :
  round3 a = round3 b ->
  round_half_even (a * inject_Z 1000) = round_half_even (b * inject_Z 1000).
Proof.
  unfold round3. intros H. apply Q2Qc_eq_iff in H.
  apply inject_Z_injective.
  setoid_replace (inject_Z (round_half_even (a * inject_Z 1000)))
    with (inject_Z (round_half_even (a * inject_Z 1000)) / inject_Z 1000 * inject_Z 1000)
    by (field; try discriminate).
  rewrite H. field; try discriminate.
Qed.

Lemma on_grid (s : Qc) :
  round3 s = s -> s == inject_Z (round_half_even (s * inject_Z 1000)) / inject_Z 1000.
Proof.
  intros H.
  assert (E : this (round3 s)
              == inject_Z (round_half_even (s * inject_Z 1000)) / inject_Z 1000)
    by (unfold round3, Q2Qc; cbn [this]; apply Qred_correct).
  rewrite H in E. exact E.
Qed.

Lemma this_sub (a b : Qc) : this (a - b)%Qc == a - b.
Proof. qc_to_q. reflexivity. Qed.

Lemma this_div_int (a b : Z) : this (of_int a / of_int b)%Qc == inject_Z a / inject_Z b.
Proof. qc_to_q. reflexivity. Qed.

Lemma small_offset (offset : Z) (shift : bool) :
  (2000 * Z.abs offset < divisor shift)%Z ->
  - (1 # 2) < inject_Z offset / inject_Z (divisor shift) * inject_Z 1000
  /\ inject_Z offset / inject_Z (divisor shift) * inject_Z 1000 < 1 # 2.
Proof.
  intros H.
  assert (Hlo : (- divisor shift < 2000 * offset)%Z) by lia.
  assert (Hhi : (2000 * offset < divisor shift)%Z) by lia.
  rewrite Zlt_Qlt in Hlo, Hhi. rewrite inject_Z_opp in Hlo.
  rewrite inject_Z_mult in Hlo, Hhi.
  destruct shift; cbn [divisor] in *.
  - change (inject_Z 3000) with (3000 # 1) in *. change (inject_Z 2000) with (2000 # 1) in *.
    change (inject_Z 1000) with (1000 # 1). 
    setoid_replace (inject_Z offset / (3000 # 1) * (1000 # 1)) with (inject_Z offset * (1 # 3)) by field.
    lra.
  - change (inject_Z 300) with (300 # 1) in *. change (inject_Z 2000) with (2000 # 1) in *.
    change (inject_Z 1000) with (1000 # 1). 
    setoid_replace (inject_Z offset / (300 # 1) * (1000 # 1)) with (inject_Z offset * (10 # 3)) by field.
    lra.
Qed.

Lemma small_step_rounds_alike (s : Qc) (x last : Z) (shift : bool) :
  round3 s = s ->
  (c0_01 <= s)%Qc ->
  (2000 * Z.abs (x - last) < divisor shift)%Z ->
  round3 s = round3 (target_scale s x last shift).
Proof.
  intros Hgrid Hfloor Hsmall.
  pose proof (on_grid s Hgrid) as Hs.
  set (k := round_half_even (s * inject_Z 1000)) in *.
  destruct (small_offset _ _ Hsmall) as [Hlo Hhi].
  apply round3_eq. fold k. symmetry.
  unfold target_scale, max.
  fold (divisor shift).
  set (d := (of_int (x - last) / of_int (divisor shift))%Qc) in *.
  assert (Hd : this d == inject_Z (x - last) / inject_Z (divisor shift))
    by apply this_div_int.
  assert (Hk : s * inject_Z 1000 == inject_Z k).
  { rewrite Hs. field. }
  destruct (ltb (s - d)%Qc c0_01) eqn:E.
  - apply ltb_lt in E. unfold Qclt in E. rewrite this_sub in E.
    unfold Qcle in Hfloor.
    change (this c0_01) with (1 # 100) in E, Hfloor.
    assert (k = 10%Z) as ->; [| reflexivity].
    assert (H1 : inject_Z 10 <= inject_Z k).
    { change (inject_Z 10) with (10 # 1). change (inject_Z 1000) with (1000 # 1) in Hk. lra. }
    assert (H2 : inject_Z k < inject_Z 11).
    { change (inject_Z 11) with (11 # 1). change (inject_Z 1000) with (1000 # 1) in *.
      rewrite Hd in E. lra. }
    rewrite <- Zle_Qle in H1. rewrite <- Zlt_Qlt in H2. lia.
  - apply round_half_even_near; rewrite this_sub, Hd;
      change (inject_Z 1000) with (1000 # 1) in *; lra.
Qed.

End Rounding.

(* ================================================================== *)
(** * More on the compensator: X1 to X3 *)
(* ================================================================== *)

(** The two sample steps, computed. *)
Example sample_rescale :
  set_ortho_scale (sample_context (of_int 6)) ActiveObject (of_int 5)
  = Ok sample_rescaled.
Proof. vm_compute. reflexivity. Qed.

Example sample_drag :
  modal (sample_operator 100 (of_int 6)) (sample_started (of_int 6))
        (mouse_move 400 false)
  = Ok (RUNNING_MODAL, sample_operator 400 (of_int 6), sample_dragged).
Proof. vm_compute. reflexivity. Qed.

Lemma camera_context_full (context : Context.t) (s : Qc) (m : Matrix) :
  camera_scale context = Some s ->
  camera_transform context = Some m ->
  exists ty,
    Context.object context
    = Some (Object.mk (Object.CameraData (Camera.mk ty s)) m).
Proof.
  intros Hs Hm. destruct (camera_context _ _ Hs) as (ty & m' & Hob).
  unfold camera_transform in Hm. rewrite Hob in Hm. cbn in Hm.
  injection Hm as ->. eauto.
Qed.

(** The outcome of [set_ortho_scale] on a camera, case by case. *)
Lemma set_ortho_scale_cases (context : Context.t) (ty : string) (cur new : Qc)
  (m : Matrix) :
  Context.object context
  = Some (Object.mk (Object.CameraData (Camera.mk ty cur)) m) ->
  (round3 cur = round3 new
   /\ set_ortho_scale context ActiveObject new = Ok context)
  \/ (round3 cur <> round3 new /\ determinant m = 0
      /\ set_ortho_scale context ActiveObject new = Raise ValueError)
  \/ (round3 cur <> round3 new /\ determinant m <> 0 /\ cur = 0
      /\ set_ortho_scale context ActiveObject new = Raise ZeroDivisionError)
  \/ (round3 cur <> round3 new /\ determinant m <> 0 /\ cur <> 0
      /\ exists inv tx ty',
           inverted m = Ok inv
           /\ set_ortho_scale context ActiveObject new
              = Ok (Context.with_object context
                      (Some (Object.mk (Object.CameraData (Camera.mk ty new))
                                       (m @@ Translation tx ty' 0))))).
Proof.
  intros Hob.
  assert (Hs : camera_scale context = Some cur)
    by (unfold camera_scale; rewrite Hob; reflexivity).
  destruct (Qc_eq_dec (round3 cur) (round3 new)) as [Hr | Hr].
  { left. split; [exact Hr | apply (set_ortho_scale_skip _ cur new Hs Hr)]. }
  right. destruct (Qc_eq_dec (determinant m) 0) as [Hd | Hd].
  { left. split; [exact Hr |]. split; [exact Hd |].
    unfold set_ortho_scale, read_ortho_scale, read_matrix_world.
    rewrite Hob. cbn. apply neqb_true in Hr. rewrite Hr.
    rewrite (inverted_singular m Hd). reflexivity. }
  right. pose proof (inverted_det m Hd) as Hinv.
  destruct (Qc_eq_dec cur 0) as [Hc | Hc].
  { left. split; [exact Hr |]. split; [exact Hd |]. split; [exact Hc |].
    unfold set_ortho_scale, read_ortho_scale, read_matrix_world.
    rewrite Hob. cbn. apply neqb_true in Hr. rewrite Hr, Hinv. cbn.
    rewrite (truediv_ok cur two two_neq_0). cbn.
    subst cur. replace (0 / two) with 0 by (field; apply two_neq_0).
    rewrite truediv_zero. reflexivity. }
  right. split; [exact Hr |]. split; [exact Hd |]. split; [exact Hc |].
  do 3 eexists. split; [exact Hinv |].
  apply (set_ortho_scale_apply _ ty cur new m _ Hob Hr Hinv Hc).
Qed.

(** X1 (how the compensator fails).  On a camera, [set_ortho_scale]
    raises in two cases only, both behind the rounding guard: when the
    rounded scales differ it raises [ValueError] on a world matrix whose
    determinant is zero, and [ZeroDivisionError] on an invertible matrix
    with a scale of zero.  When the rounded scales agree it never
    raises, whatever the matrix. *)
Theorem set_ortho_scale_failures
  (context : Context.t) (cur new : Qc) (m : Matrix) (e : exn) :
  camera_scale context = Some cur ->
  camera_transform context = Some m ->
  set_ortho_scale context ActiveObject new = Raise e
  <-> round3 cur <> round3 new
      /\ ((determinant m = 0 /\ e = ValueError)
          \/ (determinant m <> 0 /\ cur = 0 /\ e = ZeroDivisionError)).
Proof.
  intros Hs Hm. destruct (camera_context_full _ _ _ Hs Hm) as (ty & Hob).
  destruct (set_ortho_scale_cases context ty cur new m Hob)
    as [(Hr & ->) | [(Hr & Hd & ->) | [(Hr & Hd & Hc & ->)
        | (Hr & Hd & Hc & inv & tx & ty' & _ & ->)]]]; split.
  - discriminate.
  - intros (Hr' & _). contradiction.
  - intros [= <-]. auto.
  - intros (_ & [(_ & ->) | (Hd' & _)]); [reflexivity | contradiction].
  - intros [= <-]. auto.
  - intros (_ & [(Hd' & _) | (_ & _ & ->)]); [contradiction | reflexivity].
  - discriminate.
  - intros (_ & [(Hd' & _) | (_ & Hc' & _)]); contradiction.
Qed.

Lemma set_ortho_scale_failures_witness :
  set_ortho_scale (squashed_context (of_int 6)) ActiveObject (of_int 5)
  = Raise ValueError
  <-> round3 (of_int 6) <> round3 (of_int 5)
      /\ ((determinant squashed = 0 /\ ValueError = ValueError)
          \/ (determinant squashed <> 0 /\ of_int 6 = 0
              /\ ValueError = ZeroDivisionError)).
Proof.
  apply (set_ortho_scale_failures (squashed_context (of_int 6)) (of_int 6)
           (of_int 5) squashed ValueError).
  - reflexivity.
  - reflexivity.
Defined.

Lemma Translation_matmul (a b c a' b' c' : Qc) :
  Translation a b c @@ Translation a' b' c' = Translation (a + a') (b + b') (c + c').
Proof. matrix_ring. Qed.

Lemma matmul_Translation_0 (m : Matrix) : m @@ Translation 0 0 0 = m.
Proof. matrix_ring. Qed.

Lemma same_axes_translated (m : Matrix) (x y z : Qc) :
  same_axes (m @@ Translation x y z) m.
Proof.
  unfold same_axes. matrix_entries. repeat split; ring.
Qed.

Lemma affine_translated (m : Matrix) (x y z : Qc) :
  affine m -> affine (m @@ Translation x y z).
Proof.
  intros (H0 & H1 & H2 & H3). unfold affine. matrix_entries.
  rewrite H0, H1, H2, H3. repeat split; ring.
Qed.

Lemma with_object_same (context : Context.t) (ob : option Object.t) :
  Context.object context = ob -> Context.with_object context ob = context.
Proof. intros <-. destruct context; reflexivity. Qed.

(** X2 (the camera slides in its own plane).  Whenever
    [set_ortho_scale] returns from a request that is not negative, the
    context is the one it was given but for the world matrix and the
    scale of the active object, whose type is kept.  The new matrix is
    the old one times a translation along the camera's own X and Y: its
    three axis columns and its determinant are the old ones, and the
    scale is the old or the requested one.  (A negative request the
    host would store as 0; the operator never makes one.) *)
Theorem set_ortho_scale_frame
  (context context' : Context.t) (cur new : Qc) (m : Matrix) :
  camera_scale context = Some cur ->
  camera_transform context = Some m ->
  0 <= new ->
  set_ortho_scale context ActiveObject new = Ok context' ->
  exists ty s' tx ty',
    Context.object context
    = Some (Object.mk (Object.CameraData (Camera.mk ty cur)) m)
    /\ context'
       = Context.with_object context
           (Some (Object.mk (Object.CameraData (Camera.mk ty s'))
                            (m @@ Translation tx ty' 0)))
    /\ (s' = cur \/ s' = new)
    /\ same_axes (m @@ Translation tx ty' 0) m
    /\ determinant (m @@ Translation tx ty' 0) = determinant m.
Proof.
  intros Hs Hm _ Hset. destruct (camera_context_full _ _ _ Hs Hm) as (ty & Hob).
  exists ty.
  destruct (set_ortho_scale_cases context ty cur new m Hob)
    as [(Hr & E) | [(Hr & Hd & E) | [(Hr & Hd & Hc & E)
        | (Hr & Hd & Hc & inv & tx & ty' & _ & E)]]];
    rewrite E in Hset; try discriminate; injection Hset as <-.
  - exists cur, 0, 0. split; [exact Hob |].
    rewrite matmul_Translation_0. split.
    + symmetry. apply with_object_same, Hob.
    + split; [now left |]. split; [| reflexivity].
      rewrite <- (matmul_Translation_0 m) at 1.
      apply same_axes_translated.
  - exists new, tx, ty'. split; [exact Hob |]. split; [reflexivity |].
    split; [now right |].
    split; [apply same_axes_translated | apply determinant_translated].
Qed.

Lemma set_ortho_scale_frame_witness :
  exists ty s' tx ty',
    Context.object (sample_context (of_int 6))
    = Some (Object.mk (Object.CameraData (Camera.mk ty (of_int 6)))
                      (Translation (of_int 1) (of_int 2) (of_int 3)))
    /\ sample_rescaled
       = Context.with_object (sample_context (of_int 6))
           (Some (Object.mk (Object.CameraData (Camera.mk ty s'))
                    (Translation (of_int 1) (of_int 2) (of_int 3)
                     @@ Translation tx ty' 0)))
    /\ (s' = of_int 6 \/ s' = of_int 5)
    /\ same_axes (Translation (of_int 1) (of_int 2) (of_int 3)
                  @@ Translation tx ty' 0)
                 (Translation (of_int 1) (of_int 2) (of_int 3))
    /\ determinant (Translation (of_int 1) (of_int 2) (of_int 3)
                    @@ Translation tx ty' 0)
       = determinant (Translation (of_int 1) (of_int 2) (of_int 3)).
Proof.
  apply (set_ortho_scale_frame (sample_context (of_int 6)) sample_rescaled
           (of_int 6) (of_int 5) (Translation (of_int 1) (of_int 2) (of_int 3))).
  - reflexivity.
  - reflexivity.
  - qc_le.
  - exact sample_rescale.
Defined.

Lemma set_ortho_scale_anchor (context : Context.t) (ty : string) (cur new : Qc)
  (m inv : Matrix) :
  Context.object context
  = Some (Object.mk (Object.CameraData (Camera.mk ty cur)) m) ->
  round3 cur <> round3 new ->
  inverted m = Ok inv ->
  cur <> 0 ->
  affine (Context.cursor_matrix context) ->
  let l := matvec inv (translation (Context.cursor_matrix context)) in
  set_ortho_scale context ActiveObject new
  = Ok (Context.with_object context
          (Some (Object.mk (Object.CameraData (Camera.mk ty new))
                   (m @@ Translation (- (kept_offset (vx l) cur new - vx l))
                                     (- (kept_offset (vy l) cur new - vy l)) 0)))).
Proof.
  intros Hob Hr Hinv Hcur Hcaff l.
  rewrite (set_ortho_scale_apply _ ty cur new m inv Hob Hr Hinv Hcur).
  cbv zeta.
  rewrite (decompose_loc_matmul inv _ (proj2 (proj2 (proj2 Hcaff)))).
  reflexivity.
Qed.

(** X3 (cursor on the camera's axis).  When the cursor has no offset
    along the camera's own X and Y, a rescale writes the new scale and
    leaves the world matrix as it is. *)
Theorem cursor_on_axis
  (context : Context.t) (ty : string) (cur new : Qc) (m inv : Matrix) :
  Context.object context
  = Some (Object.mk (Object.CameraData (Camera.mk ty cur)) m) ->
  round3 cur <> round3 new ->
  inverted m = Ok inv ->
  cur <> 0 ->
  affine (Context.cursor_matrix context) ->
  vx (matvec inv (translation (Context.cursor_matrix context))) = 0 ->
  vy (matvec inv (translation (Context.cursor_matrix context))) = 0 ->
  set_ortho_scale context ActiveObject new
  = Ok (Context.with_object context
          (Some (Object.mk (Object.CameraData (Camera.mk ty new)) m))).
Proof.
  intros Hob Hr Hinv Hcur Hcaff Hx Hy.
  rewrite (set_ortho_scale_anchor _ ty cur new m inv Hob Hr Hinv Hcur Hcaff).
  cbv zeta. rewrite Hx, Hy. unfold kept_offset.
  replace (- (0 / (cur / two) * (new / two) - 0)) with 0
    by (field; split; [apply two_neq_0 | exact Hcur]).
  rewrite matmul_Translation_0. reflexivity.
Qed.

Lemma cursor_on_axis_witness :
  set_ortho_scale (centered_context (of_int 6)) ActiveObject (of_int 5)
  = Ok (Context.with_object (centered_context (of_int 6))
          (Some (Object.mk (Object.CameraData (Camera.mk "ORTHO" (of_int 5)))
                           (Translation (of_int 1) (of_int 2) (of_int 3))))).
Proof.
  apply (cursor_on_axis (centered_context (of_int 6)) "ORTHO" (of_int 6) (of_int 5)
           (Translation (of_int 1) (of_int 2) (of_int 3))
           (Translation (- of_int 1) (- of_int 2) (- of_int 3))).
  - reflexivity.
  - apply eqb_neq. vm_compute. reflexivity.
  - apply inverted_of_inverse.
    + apply Translation_inverse.
    + apply eqb_neq. vm_compute. reflexivity.
  - apply eqb_neq. vm_compute. reflexivity.
  - repeat split.
  - apply eqb_eq. vm_compute. reflexivity.
  - apply eqb_eq. vm_compute. reflexivity.
Defined.

(* ================================================================== *)
(** * More on the session: X7 to X15 *)
(* ================================================================== *)

Lemma modal_ignored (self : Operator) (context : Context.t) (event : Event.t) :
  ignored_input event ->
  modal self context event = Ok (RUNNING_MODAL, self, context).
Proof.
  intros (Hmove & H). unfold modal.
  apply String.eqb_neq in Hmove. rewrite Hmove.
  destruct H as [Hval | (Hesc & Hrmb & Hspace & Hlmb)].
  - apply String.eqb_neq in Hval. rewrite Hval. reflexivity.
  - apply String.eqb_neq in Hesc, Hrmb, Hspace, Hlmb.
    rewrite Hesc, Hrmb, Hspace, Hlmb. cbn.
    destruct (Event.value event =? "PRESS"); reflexivity.
Qed.

Lemma event_cases (event : Event.t) :
  pointer_move event \/ ignored_input event
  \/ cancel_input event \/ confirm_input event.
Proof.
  unfold pointer_move, ignored_input, cancel_input, confirm_input.
  destruct (String.eqb_spec (Event.type event) "MOUSEMOVE") as [Hm | Hm]; [now left |].
  right.
  destruct (String.eqb_spec (Event.value event) "PRESS") as [Hp | Hp]; [| now left; auto].
  destruct (String.eqb_spec (Event.type event) "ESC"); [right; left; auto |].
  destruct (String.eqb_spec (Event.type event) "RIGHTMOUSE"); [right; left; auto |].
  destruct (String.eqb_spec (Event.type event) "SPACE"); [right; right; auto |].
  destruct (String.eqb_spec (Event.type event) "LEFTMOUSE"); [right; right; auto |].
  left. auto 10.
Qed.

Lemma keeps_running_cases (event : Event.t) :
  keeps_running event ->
  (is_mousemove event = true /\ pointer_move event)
  \/ (is_mousemove event = false /\ ignored_input event).
Proof.
  unfold is_mousemove. intros [H | H].
  - left. split; [apply String.eqb_eq, H | exact H].
  - right. split; [apply String.eqb_neq, (proj1 H) | exact H].
Qed.

Lemma run_skip_ignored (events : list Event.t) :
  Forall keeps_running events ->
  forall (self : Operator) (context : Context.t),
    run self context events = run self context (filter is_mousemove events).
Proof.
  induction 1 as [| e events He _ IH]; intros self context; [reflexivity |].
  cbn [filter].
  destruct (keeps_running_cases e He) as [(-> & Hmove) | (-> & Hign)].
  - cbn [run]. destruct (modal self context e) as [[[st s1] c1] | x]; cbn;
      [| reflexivity].
    destruct st; try reflexivity. apply IH.
  - cbn [run]. rewrite (modal_ignored self context e Hign). cbn. apply IH.
Qed.

Lemma filter_moves (events : list Event.t) :
  Forall pointer_move (filter is_mousemove events).
Proof.
  apply Forall_forall. intros e He. apply filter_In in He.
  apply String.eqb_eq, (proj2 He).
Qed.

(** X7 (releases are ignored).  An event that is not a pointer move
    and whose value is not PRESS, such as the release of the left mouse
    button or of ESC, leaves the operator and the context as they are
    and the session running. *)
Theorem release_is_ignored
  (self : Operator) (context : Context.t) (event : Event.t) :
  Event.type event <> "MOUSEMOVE" ->
  Event.value event <> "PRESS" ->
  modal self context event = Ok (RUNNING_MODAL, self, context)
  /\ forall events, run self context (event :: events) = run self context events.
Proof.
  intros Hmove Hval.
  assert (Hmodal : modal self context event = Ok (RUNNING_MODAL, self, context))
    by (apply modal_ignored; split; auto).
  split; [exact Hmodal |]. intros events. cbn [run]. rewrite Hmodal. reflexivity.
Qed.

Lemma release_is_ignored_witness :
  modal (sample_operator 100 (of_int 6)) (sample_started (of_int 6))
        (Event.mk "LEFTMOUSE" "RELEASE" 120 false)
  = Ok (RUNNING_MODAL, sample_operator 100 (of_int 6), sample_started (of_int 6))
  /\ forall events,
       run (sample_operator 100 (of_int 6)) (sample_started (of_int 6))
           (Event.mk "LEFTMOUSE" "RELEASE" 120 false :: events)
       = run (sample_operator 100 (of_int 6)) (sample_started (of_int 6)) events.
Proof.
  apply (release_is_ignored (sample_operator 100 (of_int 6))
           (sample_started (of_int 6)) (Event.mk "LEFTMOUSE" "RELEASE" 120 false)).
  - discriminate.
  - discriminate.
Defined.

(** What [modal] answers tells which input came. *)
Lemma modal_status (self self' : Operator) (context context' : Context.t)
  (event : Event.t) (st : status) :
  modal self context event = Ok (st, self', context') ->
  match st with
  | RUNNING_MODAL => keeps_running event
  | CANCELLED =>
      cancel_input event /\ self' = self
      /\ exists c, restore self context = Ok c /\ context' = finish c
  | FINISHED => confirm_input event /\ self' = self /\ context' = finish context
  end.
Proof.
  destruct (event_cases event) as [Hmove | [Hign | [Hcancel | Hconfirm]]].
  - unfold modal. unfold pointer_move in Hmove. rewrite Hmove. cbn [String.eqb].
    rewrite String.eqb_refl.
    destruct (truediv _ _); cbn; [| discriminate].
    destruct (deref _); cbn; [| discriminate].
    destruct (read_ortho_scale _ _); cbn; [| discriminate].
    destruct (set_ortho_scale _ _ _); cbn; [| discriminate].
    intros [= <- <- <-]. left. exact Hmove.
  - rewrite (modal_ignored self context event Hign). intros [= <- <- <-].
    right. exact Hign.
  - destruct Hcancel as (Hpress & Htype). unfold modal. rewrite Hpress.
    assert (E : (Event.type event =? "MOUSEMOVE") = false)
      by (destruct Htype as [-> | ->]; reflexivity).
    assert (E' : (Event.type event =? "ESC") || (Event.type event =? "RIGHTMOUSE")
                 = true)
      by (destruct Htype as [-> | ->]; reflexivity).
    rewrite E, E'. cbn [String.eqb]. rewrite String.eqb_refl.
    destruct (restore self context) as [c | x]; cbn; [| discriminate].
    intros [= <- <- <-]. split; [split; assumption |]. split; [reflexivity |].
    exists c. auto.
  - rewrite (modal_confirm self context event Hconfirm). intros [= <- <- <-].
    auto.
Qed.

(** X8 (how a session ends).  Whenever [modal] returns, it answers
    [CANCELLED] exactly on a press of ESC or of the right mouse button
    and [FINISHED] exactly on a press of SPACE or of the left mouse
    button; and when it ends the session the operator is unchanged and
    the header text, the status text and the modal cursor are cleared. *)
Theorem session_end
  (self self' : Operator) (context context' : Context.t) (event : Event.t)
  (st : status) :
  modal self context event = Ok (st, self', context') ->
  (st = CANCELLED <-> cancel_input event)
  /\ (st = FINISHED <-> confirm_input event)
  /\ (st <> RUNNING_MODAL ->
      self' = self
      /\ Context.header_text context' = None
      /\ Context.status_text context' = None
      /\ Context.cursor_modal context' = None).
Proof.
  intros Hmodal. pose proof (modal_status _ _ _ _ _ _ Hmodal) as Hst.
  assert (Hexcl : forall e, cancel_input e -> confirm_input e -> False).
  { intros e (_ & [H1 | H1]) (_ & [H2 | H2]); rewrite H1 in H2; discriminate. }
  assert (Hrun : forall e, keeps_running e ->
                           ~ cancel_input e /\ ~ confirm_input e).
  { intros e [Hm | (Hm & [Hv | (H1 & H2 & H3 & H4)])]; split;
      intros (Hp & [Ht | Ht]); unfold pointer_move in *;
      try congruence; rewrite Ht in Hm; discriminate. }
  destruct st.
  - destruct (Hrun _ Hst) as [Hnc Hnf].
    split; [split; [discriminate | intros H; contradiction] |].
    split; [split; [discriminate | intros H; contradiction] |].
    intros H. contradiction.
  - destruct Hst as (Hc & -> & c & _ & ->).
    split; [split; auto |].
    split; [split; [discriminate | intros H; destruct (Hexcl _ Hc H)] |].
    intros _. repeat split.
  - destruct Hst as (Hf & -> & ->).
    split; [split; [discriminate | intros H; destruct (Hexcl _ H Hf)] |].
    split; [split; auto |].
    intros _. repeat split.
Qed.

Lemma session_end_witness :
  (CANCELLED = CANCELLED <-> cancel_input (key_press "ESC"))
  /\ (CANCELLED = FINISHED <-> confirm_input (key_press "ESC"))
  /\ (CANCELLED <> RUNNING_MODAL ->
      sample_operator 400 (of_int 6) = sample_operator 400 (of_int 6)
      /\ Context.header_text (finish (sample_started (of_int 6))) = None
      /\ Context.status_text (finish (sample_started (of_int 6))) = None
      /\ Context.cursor_modal (finish (sample_started (of_int 6))) = None).
Proof.
  apply (session_end (sample_operator 400 (of_int 6)) (sample_operator 400 (of_int 6))
           sample_dragged (finish (sample_started (of_int 6))) (key_press "ESC")
           CANCELLED).
  reflexivity.
Defined.

(** Settles that the events of a list keep the session running. *)
Ltac keeps_running_list :=
  repeat first
    [ apply Forall_nil
    | apply Forall_cons;
      [ first
          [ left; reflexivity
          | right; split;
            [ discriminate
            | first [ left; discriminate | right; repeat split; discriminate ] ] ]
      | ] ].

(** A pointer move too small to change the third decimal. *)
Lemma modal_small_move
  (S0 : Qc) (T0 : Matrix) (self : Operator) (context : Context.t)
  (event : Event.t) (s : Qc) :
  in_session S0 T0 self context ->
  camera_scale context = Some s ->
  round3 s = s -> c0_01 <= s ->
  pointer_move event ->
  (2000 * Z.abs (Event.mouse_region_x event - last_mouse_x self)
   < divisor (Event.shift event))%Z ->
  exists text,
    modal self context event
    = Ok (RUNNING_MODAL,
          mkOperator (cam self) (Event.mouse_region_x event)
            (init_scale self) (init_matrix self),
          Context.header_text_set context (Some text)).
Proof.
  intros (Hcam & _) Hs Hgrid Hfloor Hmove Hsmall.
  rewrite (modal_pointer_move self context event s Hcam Hs Hmove). cbv zeta.
  rewrite (set_ortho_scale_skip context s _ Hs
             (small_step_rounds_alike s _ _ _ Hgrid Hfloor Hsmall)).
  cbn [bind]. eauto.
Qed.

(** X9 (a slow drag is lost).  On a camera whose scale has at most
    three decimals and is at least 0.01, pointer moves whose offset from
    the previous position is under half a thousandth of a scale unit
    (one pixel with the precision modifier) never write the camera:
    each target rounds as the current scale does, the guard skips the
    write, and the position is stored all the same.  However long such
    a drag, the active object is untouched. *)
Theorem slow_drag_is_lost
  (S0 : Qc) (T0 : Matrix) (s : Qc) (events : list Event.t) :
  round3 s = s -> c0_01 <= s ->
  forall (self : Operator) (context : Context.t),
    in_session S0 T0 self context ->
    camera_scale context = Some s ->
    slow_drag (last_mouse_x self) events ->
    exists self' context',
      run self context events = Ok (RUNNING_MODAL, self', context')
      /\ Context.object context' = Context.object context.
Proof.
  intros Hgrid Hfloor.
  induction events as [| e events IH]; intros self context Hin Hs Hslow;
    cbn [run slow_drag] in *.
  - eauto.
  - destruct (is_mousemove e) eqn:Hm.
    + destruct Hslow as [Hsmall Hslow].
      assert (Hmove : pointer_move e) by (apply String.eqb_eq, Hm).
      destruct (modal_small_move S0 T0 self context e s Hin Hs Hgrid Hfloor
                  Hmove Hsmall) as (text & Hmodal).
      rewrite Hmodal. cbn.
      destruct (modal_move_inv S0 T0 _ _ _ _ _ _ Hin Hmove Hmodal)
        as (_ & Hin1 & _).
      destruct (IH _ _ Hin1 Hs Hslow) as (self' & context' & Hrun & Hob).
      eauto.
    + destruct Hslow as [Hign Hslow].
      rewrite (modal_ignored self context e Hign). cbn.
      apply (IH _ _ Hin Hs Hslow).
Qed.

Lemma slow_drag_is_lost_witness :
  exists self' context',
    run (sample_operator 100 (of_int 6)) (sample_started (of_int 6))
        [key_press "LEFT_SHIFT"; mouse_move 101 true; mouse_move 102 true;
         mouse_move 103 true; mouse_move 104 true]
    = Ok (RUNNING_MODAL, self', context')
    /\ Context.object context' = Context.object (sample_started (of_int 6)).
Proof.
  apply (slow_drag_is_lost (of_int 6) (Translation (of_int 1) (of_int 2) (of_int 3))
           (of_int 6)).
  - apply eqb_eq. vm_compute. reflexivity.
  - apply Qcle_alt. vm_compute. discriminate.
  - repeat split. exists (of_int 6). reflexivity.
  - reflexivity.
  - cbn. repeat split; try discriminate; try reflexivity.
    right. repeat split; discriminate.
Defined.

(** Scales that round alike are shown alike. *)
Lemma format_3f_round3 (a b : Qc) :
  round3 a = round3 b -> c0_01 <= b -> format_3f a = format_3f b.
Proof.
  intros Hr Hb. apply round3_eq_inv in Hr. unfold format_3f. rewrite Hr.
  assert (Hb0 : ltb b 0 = false).
  { destruct (ltb b 0) eqn:E; [| reflexivity]. apply ltb_lt in E.
    exfalso. apply (Qclt_not_le _ _ E).
    apply Qclt_le_weak, (Qclt_le_trans _ c0_01); [apply c0_01_pos | exact Hb]. }
  assert (Ha0 : ltb a 0 = false).
  { destruct (ltb a 0) eqn:E; [| reflexivity]. apply ltb_lt in E. exfalso.
    destruct (round_half_even_bounds (a * inject_Z 1000)) as [Hlo _].
    destruct (round_half_even_bounds (b * inject_Z 1000)) as [_ Hhi].
    rewrite Hr in Hlo.
    unfold Qclt in E. unfold Qcle in Hb.
    change (this c0_01) with (1 # 100)%Q in Hb. change (this 0) with 0%Q in E.
    set (n := round_half_even (b * inject_Z 1000)) in *.
    assert (Hn : (10 <= n)%Z).
    { apply Z.lt_succ_r. rewrite Zlt_Qlt. unfold Z.succ. rewrite inject_Z_plus.
      change (inject_Z 1000) with (1000 # 1)%Q in *.
      change (inject_Z 10) with (10 # 1)%Q. change (inject_Z 1) with 1%Q.
      change (inject_Z 9) with (9 # 1)%Q.  lra. }
    rewrite Zle_Qle in Hn. change (inject_Z 10) with (10 # 1)%Q in Hn.
    change (inject_Z 1000) with (1000 # 1)%Q in *. lra. }
  rewrite Ha0, Hb0. reflexivity.
Qed.

(** X10 (the header tells the camera's scale).  After every pointer
    move that returns, the header reads "Orthographic Scale: " followed
    by the scale the camera now has, to three decimals, also when the
    guard skipped the write. *)
Theorem header_shows_camera_scale
  (S0 : Qc) (T0 : Matrix) (self self' : Operator) (context context' : Context.t)
  (event : Event.t) (st : status) :
  in_session S0 T0 self context ->
  pointer_move event ->
  modal self context event = Ok (st, self', context') ->
  exists s',
    camera_scale context' = Some s'
    /\ Context.header_text context'
       = Some ("Orthographic Scale: " ++ format_3f s')%string.
Proof.
  intros (Hcam & _ & _ & s & Hs) Hmove.
  rewrite (modal_pointer_move self context event s Hcam Hs Hmove). cbv zeta.
  set (target := target_scale s _ _ _).
  destruct (set_ortho_scale context ActiveObject target) as [c1 | x] eqn:Hset;
    cbn [bind]; [| discriminate].
  intros [= <- <- <-].
  destruct (camera_context _ _ Hs) as (ty & m & Hob).
  destruct (set_ortho_scale_cases context ty s target m Hob)
    as [(Hr & E) | [(_ & _ & E) | [(_ & _ & _ & E)
        | (_ & _ & _ & inv & tx & ty' & _ & E)]]];
    rewrite E in Hset; try discriminate; injection Hset as <-.
  - exists s. split; [exact Hs |]. cbn.
    rewrite (format_3f_round3 s target Hr (target_scale_floor _ _ _ _)).
    reflexivity.
  - exists target. split; reflexivity.
Qed.

Lemma header_shows_camera_scale_witness :
  exists s',
    camera_scale sample_dragged = Some s'
    /\ Context.header_text sample_dragged
       = Some ("Orthographic Scale: " ++ format_3f s')%string.
Proof.
  apply (header_shows_camera_scale (of_int 6)
           (Translation (of_int 1) (of_int 2) (of_int 3))
           (sample_operator 100 (of_int 6)) (sample_operator 400 (of_int 6))
           (sample_started (of_int 6)) sample_dragged (mouse_move 400 false)
           RUNNING_MODAL).
  - repeat split. exists (of_int 6). reflexivity.
  - reflexivity.
  - exact sample_drag.
Defined.

Lemma max_floor (a : Qc) : a <= c0_01 -> max a c0_01 = c0_01.
Proof.
  intros H. unfold max. destruct (ltb a c0_01) eqn:E; [reflexivity |].
  apply Qcle_antisym; [exact H |].
  apply Qcnot_lt_le. intros Hlt. apply ltb_lt in Hlt. congruence.
Qed.

(** X11 (the floor is reached exactly).  On a camera with a positive
    scale and an invertible matrix, a pointer move so far right that
    its delta [offset / divisor] is at least the camera's scale leaves
    the camera at exactly 0.01, the literal of line 66, unless its
    scale already rounds as 0.01 does.  The hypothesis compares the
    exact quotient with the scale the camera holds, so it is not
    sensitive to rounding: the rounded quotient is still at least the
    scale, the difference at most zero, and [max] answers 0.01. *)
Theorem drag_far_right_pins_floor
  (S0 : Qc) (T0 : Matrix) (self : Operator) (context : Context.t)
  (event : Event.t) (s : Qc) :
  in_session S0 T0 self context ->
  sound_camera context ->
  camera_scale context = Some s ->
  pointer_move event ->
  s <= of_int (Event.mouse_region_x event - last_mouse_x self)
       / of_int (divisor (Event.shift event)) ->
  round3 s <> round3 c0_01 ->
  exists self' context',
    modal self context event = Ok (RUNNING_MODAL, self', context')
    /\ camera_scale context' = Some c0_01.
Proof.
  intros (Hcam & _) (s1 & m & Hs1 & Hm & Hpos & Hdet) Hs Hmove Hdelta Hr.
  assert (s1 = s) as -> by congruence.
  assert (Hfar : s - of_int (Event.mouse_region_x event - last_mouse_x self)
                     / of_int (divisor (Event.shift event)) <= c0_01).
  { set (d := of_int (Event.mouse_region_x event - last_mouse_x self)
              / of_int (divisor (Event.shift event))) in *.
    clearbody d. clear - Hdelta. to_Q. lra. }
  rewrite (modal_pointer_move self context event s Hcam Hs Hmove). cbv zeta.
  unfold target_scale. fold (divisor (Event.shift event)).
  rewrite (max_floor _ Hfar).
  destruct (camera_context_full _ _ _ Hs Hm) as (ty & Hob).
  destruct (set_ortho_scale_cases context ty s c0_01 m Hob)
    as [(Hr' & _) | [(_ & Hd & _) | [(_ & _ & Hc & _)
        | (_ & _ & _ & inv & tx & ty' & _ & E)]]].
  - contradiction.
  - contradiction.
  - exfalso. exact (pos_neq_0 s Hpos Hc).
  - rewrite E. cbn [bind]. do 2 eexists. split; reflexivity.
Qed.

Lemma drag_far_right_pins_floor_witness :
  exists self' context',
    modal (sample_operator 100 (of_int 6)) (sample_started (of_int 6))
          (mouse_move 100000 false)
    = Ok (RUNNING_MODAL, self', context')
    /\ camera_scale context' = Some c0_01.
Proof.
  apply (drag_far_right_pins_floor (of_int 6)
           (Translation (of_int 1) (of_int 2) (of_int 3))
           (sample_operator 100 (of_int 6)) (sample_started (of_int 6))
           (mouse_move 100000 false) (of_int 6)).
  - repeat split. exists (of_int 6). reflexivity.
  - exists (of_int 6), (Translation (of_int 1) (of_int 2) (of_int 3)).
    repeat split. apply eqb_neq. vm_compute. reflexivity.
  - reflexivity.
  - reflexivity.
  - apply Qcle_alt. vm_compute. discriminate.
  - apply eqb_neq. vm_compute. reflexivity.
Defined.

Lemma this_offset (offset : Z) (shift : bool) :
  (this (of_int offset / of_int (divisor shift))
   == inject_Z offset * (if shift then 1 # 3000 else 1 # 300))%Q.
Proof.
  rewrite this_div_int. destruct shift; cbn [divisor].
  - change (inject_Z 3000) with (3000 # 1)%Q. field.
  - change (inject_Z 300) with (300 # 1)%Q. field.
Qed.

Lemma target_scale_direction (s : Qc) (x last : Z) (shift : bool) :
  c0_01 <= s ->
  ((last <= x)%Z -> target_scale s x last shift <= s)
  /\ ((x <= last)%Z -> s <= target_scale s x last shift).
Proof.
  intros Hs. unfold target_scale. fold (divisor shift).
  set (d := of_int (x - last) / of_int (divisor shift)).
  pose proof (this_offset (x - last) shift) as Hd. fold d in Hd.
  assert (Hsub : (this (s - d) == s - d)%Q) by apply this_sub.
  unfold Qcle in *. change (this c0_01) with (1 # 100)%Q in *.
  split; intros Hx.
  - assert (H0 : (0 <= x - last)%Z) by lia.
    rewrite Zle_Qle in H0. change (inject_Z 0) with 0%Q in H0.
    unfold max. destruct (ltb (s - d) c0_01); [exact Hs |].
    rewrite Hsub, Hd. destruct shift; lra.
  - assert (H0 : (x - last <= 0)%Z) by lia.
    rewrite Zle_Qle in H0. change (inject_Z 0) with 0%Q in H0.
    unfold max. destruct (ltb (s - d) c0_01) eqn:E.
    + apply ltb_lt in E. unfold Qclt in E. rewrite Hsub, Hd in E.
      change (this c0_01) with (1 # 100)%Q in E. destruct shift; lra.
    + rewrite Hsub, Hd. destruct shift; lra.
Qed.

(** X12 (the direction of a drag).  From a scale of at least 0.01,
    a pointer move to the right never enlarges the scale and one to
    the left never reduces it, and the scale stays at least 0.01. *)
Theorem drag_direction
  (S0 : Qc) (T0 : Matrix) (self self' : Operator) (context context' : Context.t)
  (event : Event.t) (st : status) (s : Qc) :
  in_session S0 T0 self context ->
  camera_scale context = Some s ->
  c0_01 <= s ->
  pointer_move event ->
  modal self context event = Ok (st, self', context') ->
  exists s',
    camera_scale context' = Some s'
    /\ c0_01 <= s'
    /\ ((last_mouse_x self <= Event.mouse_region_x event)%Z -> s' <= s)
    /\ ((Event.mouse_region_x event <= last_mouse_x self)%Z -> s <= s').
Proof.
  intros (Hcam & _) Hs Hfloor Hmove.
  rewrite (modal_pointer_move self context event s Hcam Hs Hmove). cbv zeta.
  set (target := target_scale s _ _ _).
  destruct (set_ortho_scale context ActiveObject target) as [c1 | x] eqn:Hset;
    cbn [bind]; [| discriminate].
  intros [= <- <- <-]. rewrite camera_scale_header.
  destruct (set_ortho_scale_result _ _ _ _ Hs Hset) as [-> | [Hnew _]].
  - exists s. split; [exact Hs |]. split; [exact Hfloor |].
    split; intros _; apply Qcle_refl.
  - exists target. split; [exact Hnew |].
    split; [apply target_scale_floor |].
    apply target_scale_direction, Hfloor.
Qed.

Lemma drag_direction_witness :
  exists s',
    camera_scale sample_dragged = Some s'
    /\ c0_01 <= s'
    /\ ((100 <= 400)%Z -> s' <= of_int 6)
    /\ ((400 <= 100)%Z -> of_int 6 <= s').
Proof.
  apply (drag_direction (of_int 6) (Translation (of_int 1) (of_int 2) (of_int 3))
           (sample_operator 100 (of_int 6)) (sample_operator 400 (of_int 6))
           (sample_started (of_int 6)) sample_dragged (mouse_move 400 false)
           RUNNING_MODAL (of_int 6)).
  - repeat split. exists (of_int 6). reflexivity.
  - reflexivity.
  - apply Qcle_alt. vm_compute. discriminate.
  - reflexivity.
  - exact sample_drag.
Defined.

(** ** What a drag leaves alone *)

Lemma only_camera_and_header_refl (context : Context.t) (s : Qc) :
  camera_scale context = Some s -> only_camera_and_header context context.
Proof.
  intros Hs. destruct (camera_context _ _ Hs) as (ty & m & Hob).
  exists ty, s, m, s, m, (Context.header_text context).
  split; [exact Hob |]. destruct context; cbn in *. rewrite Hob. reflexivity.
Qed.

Lemma only_camera_and_header_trans (a b c : Context.t) :
  only_camera_and_header a b -> only_camera_and_header b c ->
  only_camera_and_header a c.
Proof.
  intros (ty & s & m & s1 & m1 & h1 & Ha & ->)
         (ty' & s1' & m1' & s2 & m2 & h2 & Hb & ->).
  cbn in Hb. injection Hb as <- <- <-.
  exists ty, s, m, s2, m2, h2. split; [exact Ha | reflexivity].
Qed.

Lemma modal_move_frame
  (S0 : Qc) (T0 : Matrix) (self self' : Operator) (context context' : Context.t)
  (event : Event.t) (st : status) :
  in_session S0 T0 self context ->
  pointer_move event ->
  modal self context event = Ok (st, self', context') ->
  only_camera_and_header context context'.
Proof.
  intros (Hcam & _ & _ & s & Hs) Hmove.
  rewrite (modal_pointer_move self context event s Hcam Hs Hmove). cbv zeta.
  set (target := target_scale s _ _ _).
  destruct (set_ortho_scale context ActiveObject target) as [c1 | x] eqn:Hset;
    cbn [bind]; [| discriminate].
  intros [= <- <- <-].
  destruct (camera_context _ _ Hs) as (ty & m & Hob).
  destruct (set_ortho_scale_cases context ty s target m Hob)
    as [(Hr & E) | [(_ & _ & E) | [(_ & _ & _ & E)
        | (_ & _ & _ & inv & tx & ty' & _ & E)]]];
    rewrite E in Hset; try discriminate; injection Hset as <-.
  - exists ty, s, m, s, m. eexists. split; [exact Hob |].
    destruct context; cbn in *. rewrite Hob. reflexivity.
  - exists ty, s, m, target. do 2 eexists. split; [exact Hob |]. reflexivity.
Qed.

Lemma run_moves_frame (S0 : Qc) (T0 : Matrix) (events : list Event.t) :
  Forall pointer_move events ->
  forall (self self' : Operator) (context context' : Context.t) (st : status),
    in_session S0 T0 self context ->
    run self context events = Ok (st, self', context') ->
    only_camera_and_header context context'.
Proof.
  induction 1 as [| e events He _ IH]; intros self self' context context' st Hin;
    cbn [run].
  - intros [= <- <- <-]. destruct Hin as (_ & _ & _ & s & Hs).
    apply (only_camera_and_header_refl _ s Hs).
  - destruct (modal self context e) as [[[st1 s1] c1] | x] eqn:Hmodal;
      cbn; [| discriminate].
    destruct (modal_move_inv S0 T0 _ _ _ _ _ _ Hin He Hmodal) as (-> & Hin1 & _).
    intros Hrun.
    apply (only_camera_and_header_trans _ c1).
    + apply (modal_move_frame S0 T0 _ _ _ _ _ _ Hin He Hmodal).
    + apply (IH _ _ _ _ _ Hin1 Hrun).
Qed.

(** X13 (what a drag leaves alone).  Pointer moves and ignored
    inputs keep the session running and change nothing in the context
    but the world matrix and scale of the camera and the header text:
    the cursor, the view, the type of the camera, the status text, the
    modal cursor and the operator's snapshot stay as they were. *)
Theorem drag_changes_camera_and_header_only
  (S0 : Qc) (T0 : Matrix) (self self' : Operator) (context context' : Context.t)
  (events : list Event.t) (st : status) :
  in_session S0 T0 self context ->
  Forall keeps_running events ->
  run self context events = Ok (st, self', context') ->
  st = RUNNING_MODAL
  /\ only_camera_and_header context context'
  /\ in_session S0 T0 self' context'.
Proof.
  intros Hin Hev. rewrite (run_skip_ignored events Hev). intros Hrun.
  destruct (run_moves_inv S0 T0 _ (filter_moves events) _ _ _ _ _ Hin Hrun)
    as (-> & Hin' & _).
  split; [reflexivity |]. split; [| exact Hin'].
  apply (run_moves_frame S0 T0 _ (filter_moves events) _ _ _ _ _ Hin Hrun).
Qed.

Lemma drag_changes_camera_and_header_only_witness :
  RUNNING_MODAL = RUNNING_MODAL
  /\ only_camera_and_header (sample_started (of_int 6)) sample_dragged
  /\ in_session (of_int 6) (Translation (of_int 1) (of_int 2) (of_int 3))
       (sample_operator 400 (of_int 6)) sample_dragged.
Proof.
  apply (drag_changes_camera_and_header_only (of_int 6)
           (Translation (of_int 1) (of_int 2) (of_int 3))
           (sample_operator 100 (of_int 6)) (sample_operator 400 (of_int 6))
           (sample_started (of_int 6)) sample_dragged
           [key_press "LEFT_SHIFT"; mouse_move 400 false;
            Event.mk "LEFT_SHIFT" "RELEASE" 400 false]
           RUNNING_MODAL).
  - repeat split. exists (of_int 6). reflexivity.
  - keeps_running_list.
  - cbn [run]. rewrite (modal_ignored _ _ (key_press "LEFT_SHIFT")).
    + cbn [bind]. rewrite sample_drag. cbn [bind]. reflexivity.
    + split; [discriminate | right; repeat split; discriminate].
Defined.

(** X14 (a cancelled session leaves no trace on the scene).  From
    [invoke] on a camera with a positive scale and an invertible matrix
    through any pointer moves and ignored inputs to a cancel input, the
    session ends [CANCELLED] with the active object, the view and the
    cursor exactly as before [invoke]; the header text, the status text
    and the modal cursor are cleared (not put back), and one modal
    handler was added. *)
Theorem cancelled_session_round_trip
  (context0 : Context.t) (event0 cancel : Event.t) (S0 : Qc) (T0 : Matrix)
  (events : list Event.t) :
  camera_scale context0 = Some S0 ->
  camera_transform context0 = Some T0 ->
  0 < S0 -> determinant T0 <> 0 ->
  Forall keeps_running events ->
  cancel_input cancel ->
  exists self,
    session context0 event0 (events ++ [cancel])
    = Ok (CANCELLED, self,
          Context.mk (Context.object context0)
            (Context.view_perspective context0) (Context.cursor_matrix context0)
            None None None (S (Context.modal_handlers context0))).
Proof.
  intros Hs Hm Hpos Hdet Hev Hcancel.
  unfold session. rewrite (invoke_camera context0 event0 S0 T0 Hs Hm). cbn [bind].
  set (self0 := mkOperator _ _ _ _). set (context1 := Context.modal_handler_add _).
  assert (Hin : in_session S0 T0 self0 context1)
    by (repeat split; exists S0; exact Hs).
  assert (Hsound : sound_camera context1) by (exists S0, T0; auto).
  destruct (run_moves_total S0 T0 _ (filter_moves events) self0 context1 Hin Hsound)
    as (self & context & Hrun & _).
  rewrite <- (run_skip_ignored events Hev) in Hrun.
  destruct (run_moves_inv S0 T0 _ (filter_moves events) _ _ _ _ _ Hin
              (eq_trans (eq_sym (run_skip_ignored events Hev self0 context1)) Hrun))
    as (_ & Hin' & _).
  pose proof (run_moves_frame S0 T0 _ (filter_moves events) _ _ _ _ _ Hin
                (eq_trans (eq_sym (run_skip_ignored events Hev self0 context1)) Hrun))
    as (ty & s & m & s' & m' & h & Hob & Hctx).
  exists self. rewrite (run_app events [cancel] _ _ _ _ Hrun).
  apply run_single.
  destruct Hcancel as (Hpress & Htype).
  destruct Hin' as (Hcam & Hs0 & Hm0 & _).
  destruct (camera_context_full _ _ _ Hs Hm) as (ty0 & Hob0).
  assert (ty0 = ty) as ->.
  { subst context1. cbn in Hob. rewrite Hob0 in Hob. unfold camera_object in Hob.
    congruence. }
  unfold modal, restore, write_ortho_scale, write_matrix_world.
  rewrite Hpress, Hcam, Hm0, Hs0, Hctx. rewrite Hob0.
  destruct Htype as [-> | ->]; reflexivity.
Qed.

Lemma cancelled_session_round_trip_witness :
  exists self,
    session (sample_context (of_int 6)) (start_press 100)
      ([key_press "LEFT_SHIFT"; mouse_move 400 false; mouse_move 250 true]
         ++ [key_press "RIGHTMOUSE"])
    = Ok (CANCELLED, self,
          Context.mk (Context.object (sample_context (of_int 6)))
            (Context.view_perspective (sample_context (of_int 6)))
            (Context.cursor_matrix (sample_context (of_int 6)))
            None None None
            (S (Context.modal_handlers (sample_context (of_int 6))))).
Proof.
  apply (cancelled_session_round_trip (sample_context (of_int 6)) (start_press 100)
           (key_press "RIGHTMOUSE") (of_int 6)
           (Translation (of_int 1) (of_int 2) (of_int 3))).
  - reflexivity.
  - reflexivity.
  - reflexivity.
  - apply eqb_neq. vm_compute. reflexivity.
  - keeps_running_list.
  - split; [reflexivity | right; reflexivity].
Defined.

(** X15 ([invoke] needs a camera, not an orthographic one).  On a
    context whose active object is missing or is not a camera [invoke]
    raises [AttributeError]; on any camera, orthographic or not and in
    any view, it enters the modal state with the camera's scale and
    matrix as snapshot and the pointer position stored, and does not
    touch the object. *)
Theorem invoke_needs_a_camera (context : Context.t) (event : Event.t) :
  (camera_scale context = None
   /\ invoke __init__ context event = Raise AttributeError)
  \/ (exists s m self context',
        camera_scale context = Some s /\ camera_transform context = Some m
        /\ invoke __init__ context event = Ok (RUNNING_MODAL, self, context')
        /\ init_scale self = s /\ init_matrix self = Some m
        /\ last_mouse_x self = Event.mouse_region_x event
        /\ Context.object context' = Context.object context).
Proof.
  destruct (camera_scale context) as [s |] eqn:Hs.
  - right. destruct (camera_context _ _ Hs) as (ty & m & Hob).
    assert (Hm : camera_transform context = Some m)
      by (unfold camera_transform; rewrite Hob; reflexivity).
    exists s, m. do 2 eexists. split; [reflexivity |]. split; [exact Hm |].
    split; [apply (invoke_camera context event s m Hs Hm) |].
    repeat split.
  - left. split; [reflexivity |].
    unfold camera_scale in Hs. unfold invoke, read_ortho_scale.
    destruct (Context.object context) as [[d m] |]; cbn in *; [| reflexivity].
    destruct d; try reflexivity. discriminate.
Qed.

(* ================================================================== *)
(** * The scale delta on the doubles of Python: X17 *)
(* ================================================================== *)

Lemma In_upto (z lo : Z) (n : nat) :
  (lo <= z < lo + Z.of_nat n)%Z -> In z (upto lo n).
Proof.
  revert lo. induction n as [| n IH]; intros lo H; [lia |].
  cbn [upto]. destruct (Z.eq_dec lo z) as [-> | Hne]; [now left |].
  right. apply IH. lia.
Qed.

Lemma withinb_bounds (u x e d : Q) :
  (~ e == 0 -> d * e == x - e -> Qabs (x - e) <= u * Qabs e ->
   - u <= d /\ d <= u)%Q.
Proof.
  intros He Hd H. apply Qabs_Qle_condition in H. destruct H as [Hlo Hhi].
  destruct (Qlt_le_dec 0 e) as [Hpos | Hneg].
  - rewrite (Qabs_pos e) in Hlo, Hhi by lra. split; nra.
  - assert (Hlt : (e < 0)%Q).
    { destruct (Qlt_le_dec e 0) as [Hl | Hg]; [exact Hl |].
      exfalso. apply He. lra. }
    rewrite (Qabs_neg e) in Hlo, Hhi by lra. split; nra.
Qed.

Lemma withinb_within (u x e : Qc) :
  0 <= u -> withinb u x e = true -> within u x e.
Proof.
  unfold withinb. intros Hu H. apply Qle_bool_iff in H.
  destruct (Qc_eq_dec e 0) as [-> | He].
  - exists 0. change (this 0) with 0%Q in H.
    assert (Hx : (this x == 0)%Q).
    { apply Qabs_Qle_condition in H. destruct H as [Hlo Hhi].
      change (Qabs 0) with 0%Q in Hlo, Hhi. lra. }
    assert (x = 0) as -> by (apply Qc_is_canon; exact Hx).
    split; [| split; [exact Hu | ring]]. to_Q. lra.
  - exists ((x - e) / e).
    assert (Hq : ~ (this e == 0)%Q).
    { intros E. apply He. apply Qc_is_canon. exact E. }
    assert (B := withinb_bounds (this u) (this x) (this e)
                   ((this x - this e) / this e) Hq).
    split; [| split].
    + to_Q. apply B; [field; exact Hq | exact H].
    + to_Q. apply B; [field; exact Hq | exact H].
    + field. exact He.
Qed.

Lemma offsets_checked :
  forallb offset_accurateb (upto (-8192) (Z.to_nat 16385)) = true.
Proof. vm_cast_no_check (eq_refl true). Qed.

(** X17 (the divisor switch on the doubles of Python).  For every
    pointer offset of at most 8192 pixels either way, the two
    quotients of line 64 return in binary64, each within the unit
    roundoff [2**-53] of the exact quotient, and the delta with the
    precision modifier is a tenth of the delta without it within three
    unit roundoffs. *)
Theorem precision_delta_on_doubles (offset_x : Z) :
  (- 8192 <= offset_x <= 8192)%Z ->
  exists fine coarse,
    ortho_scale_offset_in binary64 offset_x true = Ok fine
    /\ ortho_scale_offset_in binary64 offset_x false = Ok coarse
    /\ within Binary64.unit_roundoff fine (of_int offset_x / of_int 3000)
    /\ within Binary64.unit_roundoff coarse (of_int offset_x / of_int 300)
    /\ within (of_int 3 * Binary64.unit_roundoff) fine (coarse / of_int 10).
Proof.
  intros Hrange.
  pose proof offsets_checked as Hall. rewrite forallb_forall in Hall.
  assert (Hin : In offset_x (upto (-8192) (Z.to_nat 16385)))
    by (apply In_upto; rewrite Z2Nat.id; lia).
  specialize (Hall offset_x Hin).
  unfold offset_accurateb in Hall.
  destruct (ortho_scale_offset_in binary64 offset_x true) as [fine |];
    [| discriminate].
  destruct (ortho_scale_offset_in binary64 offset_x false) as [coarse |];
    [| discriminate].
  apply andb_prop in Hall. destruct Hall as [Hf Hc].
  assert (Hu : 0 <= Binary64.unit_roundoff) by qc_le.
  apply (withinb_within _ _ _ Hu) in Hf. apply (withinb_within _ _ _ Hu) in Hc.
  exists fine, coarse. repeat (split; [first [reflexivity | assumption] |]).
  apply (tenth_within Binary64.unit_roundoff (of_int offset_x) fine coarse);
    [qc_le | qc_le | exact Hf | exact Hc].
Qed.

Lemma precision_delta_on_doubles_witness :
  exists fine coarse,
    ortho_scale_offset_in binary64 32 true = Ok fine
    /\ ortho_scale_offset_in binary64 32 false = Ok coarse
    /\ within Binary64.unit_roundoff fine (of_int 32 / of_int 3000)
    /\ within Binary64.unit_roundoff coarse (of_int 32 / of_int 300)
    /\ within (of_int 3 * Binary64.unit_roundoff) fine (coarse / of_int 10).
Proof.
  apply (precision_delta_on_doubles 32). lia.
Defined.

(* ================================================================== *)
(** * Registration: X16 *)
(* ================================================================== *)

Lemma is_keymap_names (ref : Keys.KeyMapRef) (k : Keys.KeyMap) :
  Keys.is_keymap ref k = true ->
  Keys.name k = fst ref /\ Keys.space_type k = snd ref.
Proof.
  unfold Keys.is_keymap. intros H. apply andb_prop in H.
  destruct H as [H1 H2]. apply String.eqb_eq in H1, H2. auto.
Qed.

Lemma find_keymap_names (kc : Keys.KeyConfig) (ref : Keys.KeyMapRef) (k : Keys.KeyMap) :
  Keys.find_keymap kc ref = Some k ->
  Keys.name k = fst ref /\ Keys.space_type k = snd ref.
Proof.
  intros H. apply find_some in H. apply is_keymap_names, (proj2 H).
Qed.

Lemma find_update (kc : Keys.KeyConfig) (ref : Keys.KeyMapRef) (k k' : Keys.KeyMap) :
  Keys.find_keymap kc ref = Some k ->
  Keys.name k' = fst ref -> Keys.space_type k' = snd ref ->
  Keys.find_keymap (Keys.update_keymap kc ref k') ref = Some k'.
Proof.
  unfold Keys.find_keymap. intros Hfind Hn Hs.
  assert (Hk' : Keys.is_keymap ref k' = true)
    by (unfold Keys.is_keymap; rewrite Hn, Hs, !String.eqb_refl; reflexivity).
  induction kc as [| km kc IH]; cbn in *; [discriminate |].
  destruct (Keys.is_keymap ref km) eqn:E; cbn.
  - rewrite Hk'. reflexivity.
  - rewrite E. apply IH, Hfind.
Qed.

Lemma update_update (kc : Keys.KeyConfig) (ref : Keys.KeyMapRef) (k' k'' : Keys.KeyMap) :
  Keys.name k' = fst ref -> Keys.space_type k' = snd ref ->
  Keys.update_keymap (Keys.update_keymap kc ref k') ref k''
  = Keys.update_keymap kc ref k''.
Proof.
  intros Hn Hs.
  assert (Hk' : Keys.is_keymap ref k' = true)
    by (unfold Keys.is_keymap; rewrite Hn, Hs, !String.eqb_refl; reflexivity).
  induction kc as [| km kc IH]; cbn; [reflexivity |].
  destruct (Keys.is_keymap ref km) eqn:E; cbn.
  - rewrite Hk'. reflexivity.
  - rewrite E, IH. reflexivity.
Qed.

Lemma items_in_update (kc : Keys.KeyConfig) (ref q : Keys.KeyMapRef)
  (k k' : Keys.KeyMap) :
  Keys.find_keymap kc ref = Some k ->
  Keys.name k' = fst ref -> Keys.space_type k' = snd ref ->
  items_in (Keys.update_keymap kc ref k') q
  = if same_ref ref q then Keys.keymap_items k' else items_in kc q.
Proof.
  unfold items_in, Keys.find_keymap. intros Hfind Hn Hs.
  induction kc as [| km kc IH]; cbn in *; [discriminate |].
  destruct (Keys.is_keymap ref km) eqn:E; cbn.
  - destruct (is_keymap_names _ _ E) as [Hn0 Hs0].
    assert (E1 : Keys.is_keymap q k' = same_ref ref q)
      by (unfold Keys.is_keymap, same_ref; rewrite Hn, Hs; reflexivity).
    assert (E2 : Keys.is_keymap q km = same_ref ref q)
      by (unfold Keys.is_keymap, same_ref; rewrite Hn0, Hs0; reflexivity).
    rewrite E1, E2. destruct (same_ref ref q); reflexivity.
  - destruct (Keys.is_keymap q km) eqn:Eq.
    + destruct (same_ref ref q) eqn:Er; [| reflexivity].
      exfalso. unfold same_ref in Er. apply andb_prop in Er.
      destruct Er as [E1 E2]. apply String.eqb_eq in E1, E2.
      unfold Keys.is_keymap in E, Eq. rewrite E1, E2, Eq in E. discriminate.
    + apply IH, Hfind.
Qed.

Lemma items_in_new (kc : Keys.KeyConfig) (n s : string) (q : Keys.KeyMapRef) :
  items_in (kc ++ [Keys.mkKeyMap n s [] 0])%list q = items_in kc q.
Proof.
  unfold items_in, Keys.find_keymap.
  induction kc as [| km kc IH]; cbn.
  - destruct (Keys.is_keymap q _); reflexivity.
  - destruct (Keys.is_keymap q km); [reflexivity | exact IH].
Qed.

Lemma find_keymap_app (kc : Keys.KeyConfig) (ref : Keys.KeyMapRef) (k : Keys.KeyMap) :
  Keys.find_keymap kc ref = None ->
  Keys.is_keymap ref k = true ->
  Keys.find_keymap (kc ++ [k])%list ref = Some k.
Proof.
  unfold Keys.find_keymap. intros Hnone Hk.
  induction kc as [| km kc IH]; cbn in *.
  - rewrite Hk. reflexivity.
  - destruct (Keys.is_keymap ref km); [discriminate | apply IH, Hnone].
Qed.

Lemma ids_given_find (kc : Keys.KeyConfig) (ref : Keys.KeyMapRef) (k : Keys.KeyMap) :
  ids_given kc ->
  Keys.find_keymap kc ref = Some k ->
  Forall (fun i => (Keys.id i <= Keys.kmi_id k)%nat) (Keys.keymap_items k).
Proof.
  unfold ids_given. intros H Hfind. apply find_some in Hfind.
  rewrite Forall_forall in H. apply (H k (proj1 Hfind)).
Qed.

(** Removing the item just created gives the items back. *)
Lemma filter_new_item (items : list Keys.KeyMapItem) (kmi : Keys.KeyMapItem) (n : nat) :
  Forall (fun i => (Keys.id i <= n)%nat) items ->
  Keys.id kmi = S n ->
  filter (fun i => negb (Keys.id i =? S n)%nat) (items ++ [kmi])%list = items
  /\ existsb (fun i => (Keys.id i =? S n)%nat) (items ++ [kmi])%list = true.
Proof.
  intros Hall Hid. split.
  - rewrite filter_app. cbn. rewrite Hid, Nat.eqb_refl. cbn. rewrite app_nil_r.
    induction Hall as [| i items Hi _ IH]; cbn; [reflexivity |].
    assert (E : (Keys.id i =? S n)%nat = false) by (apply Nat.eqb_neq; lia).
    rewrite E. cbn. f_equal. exact IH.
  - rewrite existsb_app. cbn. rewrite Hid, Nat.eqb_refl. apply orb_true_r.
Qed.

Lemma filter_not_in (cls : string) (l : list string) :
  ~ In cls l -> filter (fun c => negb (cls =? c)) l = l.
Proof.
  induction l as [| c l IH]; cbn; [reflexivity |].
  intros H. destruct (String.eqb_spec cls c) as [-> | Hne]; cbn.
  - exfalso. apply H. now left.
  - f_equal. apply IH. intros Hin. apply H. now right.
Qed.

Lemma existsb_not_in (cls : string) (l : list string) :
  ~ In cls l -> existsb (String.eqb cls) l = false.
Proof.
  induction l as [| c l IH]; cbn; [reflexivity |].
  intros H. destruct (String.eqb_spec cls c) as [-> | Hne]; cbn.
  - exfalso. apply H. now left.
  - apply IH. intros Hin. apply H. now right.
Qed.

Lemma existsb_in (cls : string) (l : list string) :
  In cls l -> existsb (String.eqb cls) l = true.
Proof.
  intros H. apply existsb_exists. exists cls. split; [exact H | apply String.eqb_refl].
Qed.

(** The two classes go in and come out. *)
Lemma register_classes (l : list string) (kc : option Keys.KeyConfig)
  (user : Keys.KeyConfig) (pairs : list (Keys.KeyMapRef * nat)) :
  ~ In "CAMERA_OT_ortho_scale" l ->
  ~ In "OrthoScalePreferences" l ->
  for_each register_class classes (mkAddon l kc user pairs)
  = Done (mkAddon (l ++ classes)%list kc user pairs).
Proof.
  intros H1 H2. unfold classes. cbn [for_each]. unfold register_class at 1.
  cbn [registered_classes]. rewrite (existsb_not_in _ _ H1). cbn [and_then].
  unfold register_class. cbn [registered_classes keyconfigs_addon keyconfigs_user addon_keymaps].
  rewrite existsb_app, (existsb_not_in _ _ H2). cbn.
  rewrite <- app_assoc. reflexivity.
Qed.

Lemma unregister_classes (l : list string) (kc : option Keys.KeyConfig)
  (user : Keys.KeyConfig) (pairs : list (Keys.KeyMapRef * nat)) :
  ~ In "CAMERA_OT_ortho_scale" l ->
  ~ In "OrthoScalePreferences" l ->
  for_each unregister_class (rev classes) (mkAddon (l ++ classes)%list kc user pairs)
  = Done (mkAddon l kc user pairs).
Proof.
  intros H1 H2. unfold classes. cbn [rev app for_each].
  unfold unregister_class at 1. cbn [registered_classes keyconfigs_addon keyconfigs_user addon_keymaps].
  rewrite existsb_app. replace (existsb _ ["CAMERA_OT_ortho_scale"; "OrthoScalePreferences"]) with true by reflexivity.
  rewrite orb_true_r. cbn [and_then].
  rewrite filter_app, (filter_not_in _ _ H2).
  cbn [filter String.eqb Ascii.eqb Bool.eqb negb].
  unfold unregister_class. cbn [registered_classes keyconfigs_addon keyconfigs_user addon_keymaps].
  rewrite existsb_app. replace (existsb _ ["CAMERA_OT_ortho_scale"]) with true by reflexivity.
  rewrite orb_true_r.
  rewrite filter_app, (filter_not_in _ _ H1). cbn. rewrite app_nil_r. reflexivity.
Qed.

(** X16 ([unregister] undoes [register]).  With the two classes not
    yet registered, no recorded key binding, and item ids that the
    keymaps have given, [register] returns with the two classes added
    in order, and [unregister] then returns with the class registry as
    it was, [addon_keymaps] empty, the user configuration untouched and
    every keymap of the add-on configuration holding the items it held
    before. *)
Theorem register_then_unregister (a : Addon) :
  addon_keymaps a = [] ->
  ~ In "CAMERA_OT_ortho_scale" (registered_classes a) ->
  ~ In "OrthoScalePreferences" (registered_classes a) ->
  (forall kc, keyconfigs_addon a = Some kc -> ids_given kc) ->
  exists a1 a2,
    register a = Done a1
    /\ registered_classes a1 = (registered_classes a ++ classes)%list
    /\ unregister a1 = Done a2
    /\ registered_classes a2 = registered_classes a
    /\ addon_keymaps a2 = []
    /\ keyconfigs_user a2 = keyconfigs_user a
    /\ forall km, items_of a2 km = items_of a km.
Proof.
  destruct a as [l okc user pairs]. cbn [addon_keymaps registered_classes keyconfigs_addon keyconfigs_user].
  intros -> H1 H2 Hids.
  unfold register. rewrite (register_classes l okc user [] H1 H2). cbn [and_then].
  destruct okc as [kc |].
  - specialize (Hids kc eq_refl).
    unfold register_keymaps. cbn [keyconfigs_addon].
    set (ref := ("Object Mode", "EMPTY")).
    assert (Hnew : exists kc1 k,
               Keys.keymaps_new kc "Object Mode" "EMPTY" = (kc1, ref)
               /\ Keys.find_keymap kc1 ref = Some k
               /\ Forall (fun i => (Keys.id i <= Keys.kmi_id k)%nat) (Keys.keymap_items k)
               /\ (forall q, items_in kc1 q = items_in kc q)).
    { unfold Keys.keymaps_new. fold ref.
      destruct (Keys.find_keymap kc ref) as [k |] eqn:Hfind.
      - exists kc, k. split; [reflexivity |]. split; [exact Hfind |].
        split; [apply (ids_given_find kc ref k Hids Hfind) | reflexivity].
      - eexists _, _. split; [reflexivity |].
        split; [apply (find_keymap_app kc ref _ Hfind); reflexivity |].
        split; [constructor | intros q; apply items_in_new]. }
    destruct Hnew as (kc1 & k & -> & Hfind & Hle & Hitems).
    destruct (find_keymap_names _ _ _ Hfind) as [Hn Hs].
    unfold keymap_items_new. rewrite Hfind. cbn [and_then registered_classes keyconfigs_user addon_keymaps app].
    do 2 eexists. split; [reflexivity |]. split; [reflexivity |].
    unfold unregister. cbn [registered_classes keyconfigs_addon keyconfigs_user addon_keymaps].
    rewrite (unregister_classes l _ user _ H1 H2). cbn [and_then].
    unfold unregister_keymaps. cbn [addon_keymaps remove_keymap_items keyconfigs_addon].
    unfold keymap_items_remove.
    rewrite (find_update kc1 ref k
               (Keys.mkKeyMap (Keys.name k) (Keys.space_type k)
                  (Keys.keymap_items k
                     ++ [Keys.mkKeyMapItem (S (Keys.kmi_id k)) "camera.ortho_scale"
                           "S" "PRESS" true])%list
                  (S (Keys.kmi_id k)))
               Hfind Hn Hs).
    cbn [Keys.keymap_items Keys.name Keys.space_type Keys.kmi_id].
    destruct (filter_new_item (Keys.keymap_items k)
                (Keys.mkKeyMapItem (S (Keys.kmi_id k)) "camera.ortho_scale" "S" "PRESS" true)
                (Keys.kmi_id k) Hle eq_refl) as [Hfilter Hex].
    rewrite Hex, Hfilter. cbn [and_then registered_classes keyconfigs_addon keyconfigs_user addon_keymaps].
    rewrite (update_update kc1 ref
               (Keys.mkKeyMap (Keys.name k) (Keys.space_type k)
                  (Keys.keymap_items k
                     ++ [Keys.mkKeyMapItem (S (Keys.kmi_id k)) "camera.ortho_scale"
                           "S" "PRESS" true])%list
                  (S (Keys.kmi_id k)))
               _ Hn Hs).
    split; [reflexivity |]. repeat split.
    intros q. unfold items_of. cbn [keyconfigs_addon].
    fold (items_in kc q).
    pose proof (items_in_update kc1 ref q k
                  (Keys.mkKeyMap (Keys.name k) (Keys.space_type k)
                     (Keys.keymap_items k) (S (Keys.kmi_id k)))
                  Hfind Hn Hs) as Hup.
    unfold items_in at 1 in Hup. rewrite Hup. cbn [Keys.keymap_items].
    rewrite <- Hitems.
    destruct (same_ref ref q) eqn:E; [| reflexivity].
    unfold same_ref in E. apply andb_prop in E. destruct E as [E1 E2].
    apply String.eqb_eq in E1, E2. destruct q as [qn qs]. cbn in E1, E2. subst qn qs.
    unfold items_in. fold ref. rewrite Hfind. reflexivity.
  - cbn. do 2 eexists. split; [reflexivity |]. split; [reflexivity |].
    unfold unregister. rewrite (unregister_classes l None user [] H1 H2).
    cbn. repeat split.
Qed.

Lemma register_then_unregister_witness :
  exists a1 a2,
    register sample_addon = Done a1
    /\ registered_classes a1 = (registered_classes sample_addon ++ classes)%list
    /\ unregister a1 = Done a2
    /\ registered_classes a2 = registered_classes sample_addon
    /\ addon_keymaps a2 = []
    /\ keyconfigs_user a2 = keyconfigs_user sample_addon
    /\ forall km, items_of a2 km = items_of sample_addon km.
Proof.
  apply (register_then_unregister sample_addon).
  - reflexivity.
  - cbn. intros [H | []]. discriminate H.
  - cbn. intros [H | []]. discriminate H.
  - intros kc H. injection H as <-. repeat constructor.
Defined.

Example register_sample :
  exists a,
    register sample_addon = Done a
    /\ registered_classes a
       = ["VIEW3D_OT_other"; "CAMERA_OT_ortho_scale"; "OrthoScalePreferences"]
    /\ items_of a ("Object Mode", "EMPTY")
       = [Keys.mkKeyMapItem 1 "object.other" "G" "PRESS" false;
          Keys.mkKeyMapItem 2 "camera.ortho_scale" "S" "PRESS" true]
    /\ addon_keymaps a = [(("Object Mode", "EMPTY"), 2%nat)]
    /\ and_then (register sample_addon) unregister
       = Done (mkAddon ["VIEW3D_OT_other"]
                 (Some [Keys.mkKeyMap "Object Mode" "EMPTY"
                          [Keys.mkKeyMapItem 1 "object.other" "G" "PRESS" false] 2;
                        Keys.mkKeyMap "Window" "EMPTY" [] 0])
                 [] []).
Proof. eexists. repeat split. Qed.
